(** * haystack: the pile (ingestion and search over a SQLite store)

    A shallow embedding of [pkg/pile/pile.go].  The two SQL tables are lists
    of rows in rowid order; every external collaborator consulted by one call
    (temporary directory, clone, git log, ls-files, file reads, the outcome of
    each SQL statement) is an explicit field of the environment of that call,
    so the Go control flow, including every early [return err] and every
    discarded error value, is reproduced statement by statement.  The
    lifecycle ([Open] with its options and [ensureSchema]) and the command
    line ([main]) are embedded the same way. *)

From Stdlib Require Import String Ascii List ZArith NArith Bool Lia.
Import ListNotations.

Local Open Scope string_scope.
Local Open Scope list_scope.

(** ** Go values *)

(** A Go [error] value is represented by its message; a nil [error] is
    [None] wherever an [option error] appears. *)
Definition error : Type := string.

Inductive result (A : Type) : Type :=
| Ok (a : A)
| Err (e : error).
Arguments Ok {A} a.
Arguments Err {A} e.

Definition result_bind {A B : Type} (r : result A) (k : A -> result B) : result B :=
  match r with
  | Ok a => k a
  | Err e => Err e
  end.

(** A call that only reports an [error]. *)
Definition check (o : option error) : result unit :=
  match o with
  | None => Ok tt
  | Some e => Err e
  end.

Definition err_of {A : Type} (r : result A) : option error :=
  match r with
  | Ok _ => None
  | Err e => Some e
  end.

(** ** The persisted schema (the [schema] constant)

    [repos (id INTEGER PRIMARY KEY, url TEXT UNIQUE, last_indexed_commit_hash TEXT)]
    and [repo_contents (repo_id INTEGER, path TEXT, content TEXT)].  File
    contents are byte strings, one [ascii] per byte.  [repo_id] is nullable:
    it is filled by a scalar subquery that yields NULL when no row matches. *)

Record Repository : Type := mkRepository {
  id : Z;
  url : string;
  last_indexed_commit_hash : string
}.

Record ContentRecord : Type := mkContentRecord {
  repo_id : option Z;
  path : string;
  content : string
}.

Record Store : Type := mkStore {
  repos : list Repository;
  repo_contents : list ContentRecord
}.

(** The store right after [Open] on a new database: [ensureSchema] has
    created both tables and nothing else. *)
Definition empty_store : Store := mkStore [] [].

(** ** The SQL statements of [AddRepo], on a store *)

(** [... FROM repos WHERE url = ?]: the first row with that url. *)
Definition repo_by_url (u : string) (rs : list Repository) : option Repository :=
  find (fun r => String.eqb (url r) u) rs.

(** The rowid given to a new row of [repos]: one more than the largest
    rowid in use, 1 on an empty table. *)
Definition next_id (rs : list Repository) : Z :=
  fold_right (fun r m => Z.max (id r) m) 0%Z rs + 1.

(** [SELECT url, last_indexed_commit_hash FROM repos WHERE url = ? LIMIT 1]
    with the result function of line 159: the variable it assigns starts as
    the empty string and is left so when no row is produced. *)
Definition select_last_indexed (u : string) (s : Store) : string :=
  match repo_by_url u (repos s) with
  | Some r => last_indexed_commit_hash r
  | None => ""
  end.

(** [INSERT INTO repos (url, last_indexed_commit_hash) VALUES (?, ?)
     ON CONFLICT (url) DO NOTHING]. *)
Definition insert_repo (u h : string) (s : Store) : Store :=
  match repo_by_url u (repos s) with
  | Some _ => s
  | None => mkStore (repos s ++ [mkRepository (next_id (repos s)) u h]) (repo_contents s)
  end.

(** [INSERT INTO repo_contents (repo_id, path, content)
     VALUES ((SELECT id FROM repos WHERE url = ?), ?, ?)]. *)
Definition insert_content (u p c : string) (s : Store) : Store :=
  mkStore (repos s)
          (repo_contents s ++ [mkContentRecord (option_map id (repo_by_url u (repos s))) p c]).

(** ** Work on the borrowed connection

    A computation on the connection threads the uncommitted store and stops
    at the first error; the store reached so far stays in the connection for
    the deferred end of the transaction to commit or roll back. *)

Definition Tx (A : Type) : Type := Store -> Store * result A.

Definition tx_ret {A : Type} (a : A) : Tx A := fun s => (s, Ok a).

Definition tx_bind {A B : Type} (c : Tx A) (k : A -> Tx B) : Tx B :=
  fun s =>
    match c s with
    | (s', Ok a) => k a s'
    | (s', Err e) => (s', Err e)
    end.

Definition tx_lift {A : Type} (r : result A) : Tx A := fun s => (s, r).

Declare Scope tx_scope.
Delimit Scope tx_scope with tx.
Notation "x <- c ;; k" := (tx_bind c (fun x => k))
  (at level 100, c at next level, right associativity) : tx_scope.

(** [sqlitex.Execute] / [ExecuteTransient] of a statement without result
    rows: the engine either reports [outcome = Some e] and changes nothing,
    or applies the statement. *)
Definition execute (outcome : option error) (stmt : Store -> Store) : Tx unit :=
  fun s =>
    match outcome with
    | Some e => (s, Err e)
    | None => (stmt s, Ok tt)
    end.

(** The same for a query whose result function stores one column. *)
Definition query {A : Type} (outcome : option error) (q : Store -> A) : Tx A :=
  fun s =>
    match outcome with
    | Some e => (s, Err e)
    | None => (s, Ok (q s))
    end.

(** A call whose returned [error] is not bound to anything: execution goes
    on, with [dflt] for whatever the call would have produced. *)
Definition discard_error {A : Type} (dflt : A) (c : Tx A) : Tx A :=
  fun s =>
    match c s with
    | (s', Ok a) => (s', Ok a)
    | (s', Err _) => (s', Ok dflt)
    end.

(** [sqlitex.Transaction] runs BEGIN, taken to succeed on a connection just
    borrowed, and returns [end]; [end(&err)] commits when [*err] is nil and
    rolls back otherwise, and a COMMIT that fails is rolled back too (its
    error is written to [*err]).  [snapshot] is the store at BEGIN. *)
Definition transaction_end (snapshot working : Store)
    (err : option error) (commit_outcome : option error) : Store :=
  match err with
  | Some _ => snapshot
  | None =>
      match commit_outcome with
      | None => working
      | Some _ => snapshot
      end
  end.

(** ** The environment of one [AddRepo] call *)

(** One turn of the loop labelled [Exit]. *)
Inductive file_step : Type :=
| CtxDone (e : error)          (* [<-ctx.Done()] is ready; [e] is [ctx.Err()] *)
| NextFails (e : error)        (* [fileIter.Next] fails with an error other than [io.EOF] *)
| NextFile (filePath : string)
           (read : result string)        (* [os.ReadFile] *)
           (insert_err : option error).  (* outcome of the INSERT of line 205 *)

Record AddRepoEnv : Type := mkAddRepoEnv {
  mkdir_temp : result string;        (* os.MkdirTemp, line 123 *)
  clone_exec : option error;         (* clone.Exec, line 129 *)
  gitlog_exec : option error;        (* gitlog.Exec, line 134 *)
  commit_next : result string;       (* commitIter.Next, line 139: c.SHA *)
  pool_get : bool;                   (* p.pool.Get returned a connection *)
  select_err : option error;         (* outcome of the SELECT of line 156 *)
  insert_repo_err : option error;    (* outcome of the INSERT of line 171 *)
  lsfiles_exec : option error;       (* lsfiles.Exec, line 175 *)
  file_steps : list file_step;       (* the loop's turns; after the last one, [io.EOF] *)
  commit_err : option error          (* outcome of the COMMIT run by [end] *)
}.

(** ** AddRepo *)

(** Lines 123-143: everything before a connection is borrowed. *)
Definition latest_commit (env : AddRepoEnv) : result string :=
  result_bind (mkdir_temp env) (fun _ =>
  result_bind (check (clone_exec env)) (fun _ =>
  result_bind (check (gitlog_exec env)) (fun _ =>
  commit_next env))).

(** Lines 182-212. *)
Fixpoint file_loop (repoURL : string) (steps : list file_step) : Tx unit :=
  match steps with
  | [] => tx_ret tt
  | CtxDone e :: _ => tx_lift (Err e)
  | NextFails e :: _ => tx_lift (Err e)
  | NextFile filePath read insert_err :: rest =>
      (fileContents <- tx_lift read ;;
       _ <- execute insert_err (insert_content repoURL filePath fileContents) ;;
       file_loop repoURL rest)%tx
  end.

(** Lines 155-214, run on the connection inside the transaction. *)
Definition AddRepo_body (env : AddRepoEnv) (repoURL latestCommitHash : string) : Tx unit :=
  (lastIndexedCommitHash <-
     discard_error "" (query (select_err env) (select_last_indexed repoURL)) ;;
   if String.eqb lastIndexedCommitHash latestCommitHash then tx_ret tt
   else
     _ <- discard_error tt
            (execute (insert_repo_err env) (insert_repo repoURL latestCommitHash)) ;;
     _ <- tx_lift (check (lsfiles_exec env)) ;;
     file_loop repoURL (file_steps env))%tx.

(** [AddRepo]: the store after the call and the returned [error].  [txErr]
    is declared at line 151 and handed to the deferred [end]; no statement
    of the function assigns it, and the function's result is unnamed. *)
Definition AddRepo (env : AddRepoEnv) (repoURL : string) (db : Store)
    : Store * option error :=
  match latest_commit env with
  | Err e => (db, Some e)
  | Ok latestCommitHash =>
      if pool_get env then
        let txErr : option error := None in
        let '(working, r) := AddRepo_body env repoURL latestCommitHash db in
        (transaction_end db working txErr (commit_err env), err_of r)
      else (db, Some "could not get connection from pool")
  end.

(** A sequence of calls on the same pile. *)
Fixpoint AddRepo_all (calls : list (AddRepoEnv * string)) (db : Store) : Store :=
  match calls with
  | [] => db
  | (env, u) :: rest => AddRepo_all rest (fst (AddRepo env u db))
  end.

(** ** The readers *)

Record ReadEnv : Type := mkReadEnv {
  read_pool_get : bool;              (* p.pool.Get returned a connection *)
  read_exec_err : option error       (* outcome of the SELECT *)
}.

Definition healthy : ReadEnv := mkReadEnv true None.

(** [ListRepos]: [SELECT url FROM repos], one appended url per row.  The
    statement has no ORDER BY; the rows are taken here in rowid order, and
    nothing proved below depends on their order. *)
Definition ListRepos (env : ReadEnv) (db : Store) : result (list string) :=
  if read_pool_get env then
    match read_exec_err env with
    | Some e => Err e
    | None => Ok (map url (repos db))
    end
  else Err "could not get connection from pool".

(** SQLite's [lower]: the 26 upper-case ASCII letters are mapped to lower
    case, every other byte is left as it is. *)
Definition lower_byte (c : ascii) : ascii :=
  let n := N_of_ascii c in
  if ((65 <=? n) && (n <=? 90))%N then ascii_of_N (n + 32) else c.

Fixpoint lower (s : string) : string :=
  match s with
  | EmptyString => EmptyString
  | String c s' => String (lower_byte c) (lower s')
  end.

(** SQLite's [instr x y] on two TEXT values, which is what [lower] returns.
    With [N] starting at 1, its loop is

      while nNeedle <= nHaystack and the needle is not at zHaystack:
        N++; do nHaystack--, zHaystack++ while zHaystack[0] & 0xc0 == 0x80
      if nNeedle > nHaystack then N = 0

    so that a match is tried at the first byte and after it only at bytes
    that are not UTF-8 continuation bytes; the byte after the last one is
    the terminating zero.  The loop is not entered for an empty needle. *)
Definition is_continuation (c : ascii) : bool :=
  (N.land (N_of_ascii c) 192 =? 128)%N.

(** The condition of the [while]. *)
Definition loop_goes_on (x y : string) : bool :=
  (String.length y <=? String.length x)%nat && negb (String.prefix y x).

(** The value once the [while] is left. *)
Definition loop_result (n : Z) (x y : string) : Z :=
  if (String.length x <? String.length y)%nat then 0%Z else n.

(** [instr_from n skipping x y]: the loop with [N = n] and [x] what is left
    of the haystack; [skipping] says that [x] was just reached inside the
    [do ... while], whose condition is to be tested on its first byte. *)
Fixpoint instr_from (n : Z) (skipping : bool) (x y : string) {struct x} : Z :=
  match x with
  | EmptyString => loop_result n x y
  | String c x' =>
      if skipping && is_continuation c then instr_from n true x' y
      else if loop_goes_on x y then instr_from (n + 1) true x' y
      else loop_result n x y
  end.

Definition instr (x y : string) : Z :=
  match y with
  | EmptyString => 1%Z
  | String _ _ => instr_from 1 false x y
  end.

(** [WHERE instr(lower(content), lower(?)) > 0]. *)
Definition where_clause (q : string) (r : ContentRecord) : bool :=
  (0 <? instr (lower (content r)) (lower q))%Z.

(** [SearchAllRepoContents]: column 0 ([path]) of every selected row. *)
Definition SearchAllRepoContents (env : ReadEnv) (q : string) (db : Store)
    : result (list string) :=
  if read_pool_get env then
    match read_exec_err env with
    | Some e => Err e
    | None => Ok (map path (filter (where_clause q) (repo_contents db)))
    end
  else Err "could not get connection from pool".

(** ** The specification's wording of a match *)

(** [y] occurs in [x] as a substring. *)
Definition occurs_in (y x : string) : Prop :=
  exists pre suf : string, x = (pre ++ y ++ suf)%string.

(** Lower-casing as the specification means it, letter by letter: each of
    the 26 upper-case ASCII letters becomes its lower-case letter and no
    other byte changes. *)
Definition lowercase_letter (c : ascii) : ascii :=
  match c with
  | "A" => "a" | "B" => "b" | "C" => "c" | "D" => "d" | "E" => "e"
  | "F" => "f" | "G" => "g" | "H" => "h" | "I" => "i" | "J" => "j"
  | "K" => "k" | "L" => "l" | "M" => "m" | "N" => "n" | "O" => "o"
  | "P" => "p" | "Q" => "q" | "R" => "r" | "S" => "s" | "T" => "t"
  | "U" => "u" | "V" => "v" | "W" => "w" | "X" => "x" | "Y" => "y"
  | "Z" => "z"
  | _ => c
  end%char.

Fixpoint lowercased (s : string) : string :=
  match s with
  | EmptyString => EmptyString
  | String c s' => String (lowercase_letter c) (lowercased s')
  end.

(** The record matches the query when, both lower-cased, the query occurs
    in the content. *)
Definition matches_ignoring_case (q : string) (r : ContentRecord) : Prop :=
  occurs_in (lowercased q) (lowercased (content r)).

(** A UTF-8 continuation byte: one from 0x80 to 0xBF. *)
Definition continuation_byte (c : ascii) : bool :=
  ((128 <=? N_of_ascii c) && (N_of_ascii c <=? 191))%N.

(** The query begins in the middle of a UTF-8 character: its first byte is
    a continuation byte. *)
Definition starts_with_continuation (q : string) : bool :=
  match q with
  | EmptyString => false
  | String c _ => continuation_byte c
  end.

(** A file holding the bytes of "caf" followed by U+00E9 in UTF-8 (C3 A9),
    and the query made of the byte A9 alone. *)
Definition cafe_record : ContentRecord :=
  mkContentRecord (Some 1%Z) "menu.txt"
    ("caf" ++ String (ascii_of_N 195) (String (ascii_of_N 169) EmptyString))%string.

Definition continuation_query : string := String (ascii_of_N 169) EmptyString.

(** The paths a scan of the table yields when exactly the records satisfying
    [P] are selected: each record, in table order, contributes its own path
    when it satisfies [P] and nothing otherwise. *)
Inductive selects (P : ContentRecord -> Prop) : list ContentRecord -> list string -> Prop :=
| selects_nil : selects P [] []
| selects_take r rs ps : P r -> selects P rs ps -> selects P (r :: rs) (path r :: ps)
| selects_skip r rs ps : ~ P r -> selects P rs ps -> selects P (r :: rs) ps.

(** ** Environments in which every collaborator and statement succeeds *)

Definition file_ok (f : string * string) : file_step :=
  NextFile (fst f) (Ok (snd f)) None.

(** A call that clones into [dir], observes head commit [h] and lists
    [files] (path and bytes), with no failure anywhere. *)
Definition succeeding (dir h : string) (files : list (string * string)) : AddRepoEnv :=
  mkAddRepoEnv (Ok dir) None None (Ok h) true None None None (map file_ok files) None.

(** The content row inserted for one listed file when the subquery on
    [repos] yields [rid]. *)
Definition content_row (rid : option Z) (f : string * string) : ContentRecord :=
  mkContentRecord rid (fst f) (snd f).

(** ** Piles and environments of the concrete runs *)

Definition example_repo : string := "https://example/repo".
Definition staging : string := "/tmp/mergestat-haystack-0".

(** The pile after one complete ingestion of [example_repo] at head
    [c0ffee], whose only file is [a.txt]. *)
Definition indexed_once : Store :=
  mkStore [mkRepository 1 example_repo "c0ffee"]
          [mkContentRecord (Some 1%Z) "a.txt" "foo"].

(** The second listed path is a directory (a submodule), so [os.ReadFile]
    fails on it; everything else succeeds. *)
Definition read_fails : AddRepoEnv :=
  mkAddRepoEnv (Ok staging) None None (Ok "c0ffee") true None None None
    [NextFile "a.txt" (Ok "foo") None;
     NextFile "vendor/lib" (Err "read vendor/lib: is a directory") None;
     NextFile "b.txt" (Ok "bar") None]
    None.

(** The SELECT of line 156 fails: its error is dropped, the variable stays
    empty, and the unchanged head is indexed again. *)
Definition select_fails : AddRepoEnv :=
  mkAddRepoEnv (Ok staging) None None (Ok "c0ffee") true
    (Some "database is locked") None None
    [NextFile "a.txt" (Ok "foo") None] None.

(** The INSERT of line 171 fails: its error is dropped and the files are
    inserted with no row to refer to. *)
Definition insert_fails : AddRepoEnv :=
  mkAddRepoEnv (Ok staging) None None (Ok "c0ffee") true
    None (Some "database or disk is full") None
    [NextFile "a.txt" (Ok "foo") None] None.

(** A repository without tracked files, ingested while the INSERT of
    line 171 fails. *)
Definition insert_fails_no_files : AddRepoEnv :=
  mkAddRepoEnv (Ok staging) None None (Ok "c0ffee") true
    None (Some "database is locked") None [] None.

(** The files of the loop's turns that come before its first failing turn:
    the ones whose read and INSERT both succeed. *)
Fixpoint ingested (steps : list file_step) : list (string * string) :=
  match steps with
  | NextFile filePath (Ok fileContents) None :: rest =>
      (filePath, fileContents) :: ingested rest
  | _ => []
  end.

(** The rowids of [repos] are pairwise distinct and start at 1. *)
Definition ids_in_order (s : Store) : Prop :=
  NoDup (map id (repos s)) /\ forall r, In r (repos s) -> (1 <= id r)%Z.

(** Every content row refers to no repository or to one that is there. *)
Definition attributed (s : Store) : Prop :=
  forall c, In c (repo_contents s) ->
    repo_id c = None \/ exists r, In r (repos s) /\ repo_id c = Some (id r).

(** ** The lifecycle of a pile: [Open], its options, [ensureSchema], [Close] *)

(** A database before the schema is known to be there: each of the two
    tables exists, with its rows, or does not. *)
Record Database : Type := mkDatabase {
  repos_table : option (list Repository);
  repo_contents_table : option (list ContentRecord)
}.

Definition no_tables : Database := mkDatabase None None.

Definition database_of (s : Store) : Database :=
  mkDatabase (Some (repos s)) (Some (repo_contents s)).

Definition rows {A : Type} (t : option (list A)) : list A :=
  match t with
  | Some l => l
  | None => []
  end.

(** The tables as the operations of a pile see them once both exist. *)
Definition store_of (d : Database) : Store :=
  mkStore (rows (repos_table d)) (rows (repo_contents_table d)).

(** [CREATE TABLE IF NOT EXISTS]. *)
Definition create_table_if_not_exists {A : Type} (t : option (list A)) : option (list A) :=
  match t with
  | Some l => Some l
  | None => Some []
  end.

(** The script of the [schema] constant, run to its end. *)
Definition schema (d : Database) : Database :=
  mkDatabase (create_table_if_not_exists (repos_table d))
             (create_table_if_not_exists (repo_contents_table d)).

(** [Pile]: [pool] is the nil pointer ([None]) or the pool opened on a
    connection string, by which it is identified here. *)
Record Pile : Type := mkPile {
  pool : option string;
  clonePath : string
}.

(** What the world answers while a pile is opened. *)
Record OpenEnv : Type := mkOpenEnv {
  sqlitex_Open : string -> option error;   (* sqlitex.Open(connection, 0, NumCPU) *)
  os_MkdirAll : string -> option error;    (* os.MkdirAll(filePath, 0755) *)
  os_MkdirTemp : result string;            (* os.MkdirTemp in the default directory *)
  schema_pool_get : bool;                  (* p.pool.Get in ensureSchema *)
  schema_script_err : option error         (* outcome of sqlitex.ExecuteScript *)
}.

(** [openOption], a function from a pointer to the pile to an [error]: the
    pile after the call, or the error. *)
Definition openOption : Type := OpenEnv -> Pile -> result Pile.

Definition WithConnection (connection : string) : openOption :=
  fun env p =>
    match sqlitex_Open env connection with
    | Some e => Err e
    | None => Ok (mkPile (Some connection) (clonePath p))
    end.

Definition WithRepoClonePath (filePath : string) : openOption :=
  fun env p =>
    match os_MkdirAll env filePath with
    | Some e => Err e
    | None => Ok (mkPile (pool p) filePath)
    end.

(** [ensureSchema]: [sqlitex.ExecuteScript] runs the script in a savepoint
    that it rolls back on an error. *)
Definition ensureSchema (env : OpenEnv) (d : Database) : Database * option error :=
  if schema_pool_get env then
    match schema_script_err env with
    | Some e => (d, Some e)
    | None => (schema d, None)
    end
  else (d, Some "could not get connection from pool").

(** The loop of lines 53-57. *)
Fixpoint apply_options (env : OpenEnv) (opts : list openOption) (p : Pile) : result Pile :=
  match opts with
  | [] => Ok p
  | opt :: rest =>
      match opt env p with
      | Err e => Err e
      | Ok p' => apply_options env rest p'
      end
  end.

Definition default_connection : string := "file::memory:?cache=shared".

(** [Open], on the database [d] that the pool it ends with leads to: the
    database afterwards, and the pile or the error. *)
Definition Open (env : OpenEnv) (opts : list openOption) (d : Database)
    : Database * result Pile :=
  match apply_options env opts (mkPile None "") with
  | Err e => (d, Err e)
  | Ok p0 =>
      match (match pool p0 with
             | None => WithConnection default_connection env p0
             | Some _ => Ok p0
             end) with
      | Err e => (d, Err e)
      | Ok p1 =>
          match (if String.eqb (clonePath p1) ""
                 then result_bind (os_MkdirTemp env)
                        (fun dir => Ok (mkPile (pool p1) dir))
                 else Ok p1) with
          | Err e => (d, Err e)
          | Ok p2 =>
              match ensureSchema env d with
              | (d', Some e) => (d', Err e)
              | (d', None) => (d', Ok p2)
              end
          end
      end
  end.

(** ** The command line ([main]) *)

Record MainEnv : Type := mkMainEnv {
  open_env : OpenEnv;
  add_env : AddRepoEnv;
  read_env : ReadEnv;
  close_err : option error                 (* p.pool.Close() *)
}.

(** How a run of the command ends: the lines printed on standard output,
    the error given to [log.Fatal] if any (the process then exits with
    status 1 at once, deferred calls not being run), and whether the
    deferred [Close] was called. *)
Record Exit : Type := mkExit {
  stdout : list string;
  fatal : option error;
  close_called : bool
}.

Definition exit_status (x : Exit) : Z :=
  match fatal x with
  | Some _ => 1%Z
  | None => 0%Z
  end.

(** [flag.Arg i]: the i-th argument left after the flags, or the empty
    string when there is none. *)
Definition flag_Arg (args : list string) (i : nat) : string := nth i args "".

(** [main], for the value of the [-connection] flag and the remaining
    arguments.  The context is [context.Background()], which is never
    done. *)
Definition main (env : MainEnv) (connection : string) (args : list string)
    (d : Database) : Database * Exit :=
  match Open (open_env env) [WithConnection connection] d with
  | (d1, Err e) => (d1, mkExit [] (Some e) false)
  | (d1, Ok _) =>
      let returns (d2 : Database) (out : list string) :=
        (d2, mkExit out (close_err env) true) in
      let verb := flag_Arg args 0 in
      if String.eqb verb "add-repo" then
        match AddRepo (add_env env) (flag_Arg args 1) (store_of d1) with
        | (s, Some e) => (database_of s, mkExit [] (Some e) false)
        | (s, None) => returns (database_of s) []
        end
      else if String.eqb verb "list-repos" then
        match ListRepos (read_env env) (store_of d1) with
        | Err e => (d1, mkExit [] (Some e) false)
        | Ok repos => returns d1 repos
        end
      else if String.eqb verb "search-repos" then
        match SearchAllRepoContents (read_env env) (flag_Arg args 1) (store_of d1) with
        | Err e => (d1, mkExit [] (Some e) false)
        | Ok results => returns d1 results
        end
      else returns d1 ["unknown command"]
  end.

(** Everything [Open] consults when its only option is [WithConnection]
    succeeds. *)
Definition opens (env : OpenEnv) (connection : string) : Prop :=
  sqlitex_Open env connection = None
  /\ (exists dir, os_MkdirTemp env = Ok dir)
  /\ schema_pool_get env = true
  /\ schema_script_err env = None.

(** A world in which nothing fails, for the concrete runs. *)
Definition open_well : OpenEnv :=
  mkOpenEnv (fun _ => None) (fun _ => None) (Ok staging) true None.

Definition all_well : MainEnv :=
  mkMainEnv open_well (succeeding staging "c0ffee" [("a.txt", "foo")]) healthy None.

(** * Facts about the SQLite functions *)

Section Instr.

Lemma prefix_iff (y x : string) :
  String.prefix y x = true <-> exists suf : string, x = (y ++ suf)%string.
Proof.
  revert x; induction y as [|c y IH]; intros x; simpl.
  - split; [intros _; now exists x | intros _; now destruct x].
  - destruct x as [|d x].
    + split; [discriminate | intros [suf H]; discriminate].
    + simpl. destruct (Ascii.ascii_dec c d) as [->|ne].
      * split.
        -- intros H; apply IH in H; destruct H as [suf H]; exists suf; congruence.
        -- intros [suf H]; apply IH; exists suf; congruence.
      * split; [discriminate | intros [suf H]; congruence].
Qed.

Lemma occurs_in_cons (y x : string) (c : ascii) :
  String.prefix y (String c x) = false ->
  (occurs_in y (String c x) <-> occurs_in y x).
Proof.
  intros Hp; split; intros [pre [suf H]].
  - destruct pre as [|d pre]; simpl in H.
    + assert (String.prefix y (String c x) = true) as Ht
        by (apply prefix_iff; now exists suf).
      congruence.
    + exists pre, suf; congruence.
  - exists (String c pre), suf; simpl; congruence.
Qed.

Lemma occurs_in_empty (y : string) :
  String.prefix y "" = false -> ~ occurs_in y "".
Proof.
  intros Hp [pre [suf H]].
  destruct pre; [|discriminate]. destruct y; [|discriminate].
  discriminate.
Qed.

Lemma occurs_in_tail (y x : string) (c : ascii) :
  occurs_in y x -> occurs_in y (String c x).
Proof. intros [pre [suf ->]]. now exists (String c pre), suf. Qed.

Lemma append_length (a b : string) :
  String.length (a ++ b) = String.length a + String.length b.
Proof. induction a as [|c a IH]; simpl; [reflexivity | now rewrite IH]. Qed.

Lemma occurs_in_length (y x : string) :
  occurs_in y x -> String.length y <= String.length x.
Proof. intros [pre [suf ->]]. rewrite !append_length. lia. Qed.

Lemma loop_result_found (n : Z) (x y : string) :
  (0 < n)%Z -> loop_goes_on x y = false -> (0 < loop_result n x y)%Z ->
  String.prefix y x = true.
Proof.
  unfold loop_goes_on, loop_result. intros Hn Hg Hr.
  destruct (String.length x <? String.length y)%nat eqn:Hl; [lia|].
  apply Nat.ltb_ge in Hl. apply Nat.leb_le in Hl. rewrite Hl in Hg. simpl in Hg.
  now destruct (String.prefix y x).
Qed.

(** Whatever the loop finds is an occurrence. *)
Lemma instr_from_sound (y x : string) :
  forall (n : Z) (skipping : bool),
    (0 < n)%Z -> (0 < instr_from n skipping x y)%Z -> occurs_in y x.
Proof.
  induction x as [|c x IH]; intros n skipping Hn; simpl.
  - unfold loop_result. simpl. destruct y; simpl; [|lia].
    intros _. now exists "", "".
  - destruct (skipping && is_continuation c).
    + intros H. apply occurs_in_tail. now apply (IH n true).
    + destruct (loop_goes_on (String c x) y) eqn:Hg.
      * intros H. apply occurs_in_tail. apply (IH (n + 1)%Z true); [lia | exact H].
      * intros H. apply (loop_result_found n _ _ Hn Hg) in H.
        apply prefix_iff in H. destruct H as [suf Hs]. now exists "", suf.
Qed.

(** A needle whose first byte is no continuation byte is found wherever it
    occurs. *)
Lemma instr_from_complete (c0 : ascii) (y' x : string) :
  is_continuation c0 = false ->
  forall (n : Z) (skipping : bool),
    (0 < n)%Z -> occurs_in (String c0 y') x ->
    (0 < instr_from n skipping x (String c0 y'))%Z.
Proof.
  intros Hc0. induction x as [|c x IH]; intros n skipping Hn Hocc.
  - apply occurs_in_length in Hocc. simpl in Hocc. lia.
  - cbn [instr_from].
    destruct (skipping && is_continuation c) eqn:Hs.
    + apply andb_true_iff in Hs. destruct Hs as [_ Hc].
      apply IH; [exact Hn|].
      apply (occurs_in_cons _ _ c); [|exact Hocc].
      simpl. destruct (Ascii.ascii_dec c0 c) as [->|]; [congruence | reflexivity].
    + destruct (loop_goes_on (String c x) (String c0 y')) eqn:Hg.
      * apply IH; [lia|]. unfold loop_goes_on in Hg.
        apply andb_true_iff in Hg. destruct Hg as [_ Hp].
        apply negb_true_iff in Hp.
        now apply (occurs_in_cons _ _ c).
      * unfold loop_result. apply occurs_in_length in Hocc.
        apply Nat.ltb_ge in Hocc. now rewrite Hocc.
Qed.

Lemma instr_empty_needle (x : string) : instr x "" = 1%Z.
Proof. reflexivity. Qed.

Lemma instr_occurs (x y : string) : (0 < instr x y)%Z -> occurs_in y x.
Proof.
  destruct y as [|c0 y']; simpl.
  - intros _. now exists "", x.
  - apply instr_from_sound. lia.
Qed.

(** The test of the [do ... while] singles out the continuation bytes. *)
Lemma is_continuation_byte (c : ascii) : is_continuation c = continuation_byte c.
Proof. destruct c as [[] [] [] [] [] [] [] []]; reflexivity. Qed.

Lemma instr_found (x y : string) :
  starts_with_continuation y = false ->
  ((0 < instr x y)%Z <-> occurs_in y x).
Proof.
  intros Hy. split; [apply instr_occurs|].
  destruct y as [|c0 y']; simpl; [lia|].
  intros Hocc. apply instr_from_complete; [|lia | exact Hocc].
  now rewrite is_continuation_byte.
Qed.

(** Once inside the [do ... while], a needle that begins with a
    continuation byte is never found. *)
Lemma instr_from_skipping (c0 : ascii) (y' x : string) :
  is_continuation c0 = true ->
  forall n : Z, instr_from n true x (String c0 y') = 0%Z.
Proof.
  intros Hc0. induction x as [|c x IH]; intros n; [reflexivity|].
  cbn [instr_from]. destruct (is_continuation c) eqn:Hc; simpl; [apply IH|].
  destruct (loop_goes_on (String c x) (String c0 y')) eqn:Hg; [apply IH|].
  unfold loop_goes_on in Hg. unfold loop_result.
  assert (Hp : String.prefix (String c0 y') (String c x) = false).
  { simpl. destruct (Ascii.ascii_dec c0 c) as [->|]; [congruence | reflexivity]. }
  rewrite Hp, andb_true_r in Hg. apply Nat.leb_gt in Hg.
  apply Nat.ltb_lt in Hg. now rewrite Hg.
Qed.

Lemma instr_continuation_needle (x y : string) :
  starts_with_continuation y = true ->
  ((0 < instr x y)%Z <-> String.prefix y x = true).
Proof.
  destruct y as [|c0 y']; [discriminate|]. simpl starts_with_continuation.
  rewrite <- is_continuation_byte. intros Hc0.
  unfold instr. destruct x as [|c x].
  - simpl. split; [unfold loop_result; simpl; lia | discriminate].
  - cbn [instr_from]. rewrite andb_false_l.
    destruct (loop_goes_on (String c x) (String c0 y')) eqn:Hg.
    + rewrite (instr_from_skipping c0 y' x Hc0).
      unfold loop_goes_on in Hg. apply andb_true_iff in Hg.
      destruct Hg as [_ Hp]. apply negb_true_iff in Hp. rewrite Hp.
      split; [lia | discriminate].
    + split.
      * apply loop_result_found; [lia | exact Hg].
      * intros Hp. unfold loop_result.
        assert (Hl : String.length (String c0 y') <= String.length (String c x)).
        { apply occurs_in_length. apply prefix_iff in Hp.
          destruct Hp as [suf Hs]. now exists "", suf. }
        apply Nat.ltb_ge in Hl. rewrite Hl. lia.
Qed.

(** SQLite's [lower] is the lower-casing of the specification. *)
Lemma lower_byte_letter (c : ascii) : lower_byte c = lowercase_letter c.
Proof. destruct c as [[] [] [] [] [] [] [] []]; reflexivity. Qed.

Lemma lower_lowercased (s : string) : lower s = lowercased s.
Proof.
  induction s as [|c s IH]; simpl; [reflexivity|].
  now rewrite lower_byte_letter, IH.
Qed.

Lemma lower_byte_continuation (c : ascii) :
  continuation_byte (lower_byte c) = continuation_byte c.
Proof. destruct c as [[] [] [] [] [] [] [] []]; reflexivity. Qed.

Lemma lower_starts_with_continuation (q : string) :
  starts_with_continuation (lower q) = starts_with_continuation q.
Proof. destruct q; simpl; [reflexivity | apply lower_byte_continuation]. Qed.

Lemma lowercased_app (a b : string) :
  lowercased (a ++ b) = (lowercased a ++ lowercased b)%string.
Proof. induction a as [|c a IH]; simpl; [reflexivity | now rewrite IH]. Qed.

Lemma occurs_in_lowercased (y x : string) :
  occurs_in y x -> occurs_in (lowercased y) (lowercased x).
Proof.
  intros [pre [suf ->]]. exists (lowercased pre), (lowercased suf).
  now rewrite !lowercased_app.
Qed.

(** A selected record matches. *)
Lemma where_clause_matches (q : string) (r : ContentRecord) :
  where_clause q r = true -> matches_ignoring_case q r.
Proof.
  unfold where_clause, matches_ignoring_case. rewrite Z.ltb_lt.
  rewrite <- !lower_lowercased. apply instr_occurs.
Qed.

Lemma where_clause_iff (q : string) (r : ContentRecord) :
  starts_with_continuation q = false ->
  (where_clause q r = true <-> matches_ignoring_case q r).
Proof.
  intros Hq. unfold where_clause, matches_ignoring_case.
  rewrite Z.ltb_lt, <- !lower_lowercased. apply instr_found.
  now rewrite lower_starts_with_continuation.
Qed.

Lemma filter_selects (q : string) (rs : list ContentRecord) :
  starts_with_continuation q = false ->
  selects (matches_ignoring_case q) rs (map path (filter (where_clause q) rs)).
Proof.
  intros Hq. induction rs as [|r rs IH]; simpl; [constructor|].
  destruct (where_clause q r) eqn:Hw; simpl.
  - apply selects_take; [now apply where_clause_iff | exact IH].
  - apply selects_skip; [|exact IH].
    intros Hm; apply (where_clause_iff q r Hq) in Hm; congruence.
Qed.

End Instr.

(** * The readers *)

(** On a store whose [repos] table is empty, [ListRepos] with a connection
    and a statement that runs returns the empty sequence and no error. *)
Theorem ListRepos_empty_store (env : ReadEnv) (db : Store) :
  repos db = [] ->
  read_pool_get env = true ->
  read_exec_err env = None ->
  ListRepos env db = Ok [].
Proof.
  intros Hr Hc He. unfold ListRepos. now rewrite Hc, He, Hr.
Qed.

Lemma ListRepos_empty_store_witness :
  ListRepos healthy empty_store = Ok [].
Proof. apply (ListRepos_empty_store healthy empty_store); reflexivity. Defined.

(** C7: the empty query is accepted; every stored record satisfies the
    WHERE clause for it, whatever its content, so the result is the path of
    every record of [repo_contents], and each indexed path is in it. *)
Theorem Search_empty_query (env : ReadEnv) (db : Store) :
  read_pool_get env = true ->
  read_exec_err env = None ->
  SearchAllRepoContents env "" db = Ok (map path (repo_contents db))
  /\ (forall r, where_clause "" r = true)
  /\ (forall r, In r (repo_contents db) ->
        exists paths, SearchAllRepoContents env "" db = Ok paths /\ In (path r) paths).
Proof.
  intros Hc He.
  assert (Hall : forall r, where_clause "" r = true).
  { intros r. unfold where_clause. simpl lower at 2.
    rewrite instr_empty_needle. reflexivity. }
  assert (Heq : SearchAllRepoContents env "" db = Ok (map path (repo_contents db))).
  { unfold SearchAllRepoContents. rewrite Hc, He. f_equal. f_equal.
    induction (repo_contents db) as [|r rs IH]; [reflexivity|].
    cbn [filter]. rewrite Hall. now f_equal. }
  split; [exact Heq | split; [exact Hall|]].
  intros r Hin. exists (map path (repo_contents db)).
  split; [exact Heq | now apply in_map].
Qed.

Lemma Search_empty_query_witness :
  SearchAllRepoContents healthy ""
    (mkStore [] [mkContentRecord (Some 1%Z) "a.txt" "foo";
                 mkContentRecord (Some 1%Z) "empty" ""])
  = Ok ["a.txt"; "empty"].
Proof.
  apply (Search_empty_query healthy
           (mkStore [] [mkContentRecord (Some 1%Z) "a.txt" "foo";
                        mkContentRecord (Some 1%Z) "empty" ""]));
    reflexivity.
Defined.

(** C8, as amended: the search ignores ASCII case for every query that does
    not begin with a UTF-8 continuation byte (0x80 to 0xBF).  For such a
    query the WHERE clause holds of a record exactly when the lower-cased
    query occurs in the lower-cased content, and the result is made of the
    paths of exactly those records; in particular a record whose content
    contains "Hello" is returned for the query "hello". *)
Theorem Search_ignores_case (env : ReadEnv) (q : string) (db : Store) :
  read_pool_get env = true ->
  read_exec_err env = None ->
  starts_with_continuation q = false ->
  (forall r, where_clause q r = true <-> matches_ignoring_case q r)
  /\ (exists paths,
        SearchAllRepoContents env q db = Ok paths
        /\ selects (matches_ignoring_case q) (repo_contents db) paths)
  /\ (forall r, In r (repo_contents db) -> occurs_in "Hello" (content r) ->
        exists paths,
          SearchAllRepoContents env "hello" db = Ok paths /\ In (path r) paths).
Proof.
  intros Hc He Hq. split; [intros r; now apply where_clause_iff|]. split.
  - exists (map path (filter (where_clause q) (repo_contents db))). split.
    + unfold SearchAllRepoContents. now rewrite Hc, He.
    + now apply filter_selects.
  - intros r Hin Hocc.
    exists (map path (filter (where_clause "hello") (repo_contents db))). split.
    + unfold SearchAllRepoContents. now rewrite Hc, He.
    + apply in_map, filter_In. split; [exact Hin|].
      apply where_clause_iff; [reflexivity|]. unfold matches_ignoring_case.
      change (lowercased "hello") with (lowercased "Hello").
      now apply occurs_in_lowercased.
Qed.

Lemma Search_ignores_case_witness :
  selects (matches_ignoring_case "hello")
    [mkContentRecord (Some 1%Z) "greeting.txt" "Oh, Hello there";
     mkContentRecord (Some 1%Z) "other.txt" "HELP"]
    ["greeting.txt"].
Proof.
  destruct (proj1 (proj2 (Search_ignores_case healthy "hello"
              (mkStore [] [mkContentRecord (Some 1%Z) "greeting.txt" "Oh, Hello there";
                           mkContentRecord (Some 1%Z) "other.txt" "HELP"])
              eq_refl eq_refl eq_refl))) as [paths [Hs Hsel]].
  vm_compute in Hs. injection Hs as <-. exact Hsel.
Defined.

(** C8 as first stated, for every query, fails: the byte A9 occurs in the
    content of [cafe_record], and no lower-casing changes either, yet the
    search for it returns nothing, because [instr] does not try a match at
    a continuation byte. *)
Lemma Search_continuation_query_counterexample :
  matches_ignoring_case continuation_query cafe_record
  /\ SearchAllRepoContents healthy continuation_query (mkStore [] [cafe_record]) = Ok [].
Proof.
  split; [|reflexivity].
  exists ("caf" ++ String (ascii_of_N 195) EmptyString)%string, "". reflexivity.
Qed.

(** * AddRepo *)

Section Ingestion.

Variable repoURL : string.

Lemma file_loop_repos (steps : list file_step) :
  forall s, repos (fst (file_loop repoURL steps s)) = repos s.
Proof.
  induction steps as [|st steps IH]; intros s; [reflexivity|].
  destruct st as [e|e|p [c|e] [e'|]]; try reflexivity.
  simpl. unfold tx_bind, tx_lift, execute. simpl. now rewrite IH.
Qed.

Lemma file_loop_appends (steps : list file_step) :
  forall s, exists added,
    repo_contents (fst (file_loop repoURL steps s)) = repo_contents s ++ added.
Proof.
  induction steps as [|st steps IH]; intros s.
  - exists []. simpl. now rewrite app_nil_r.
  - destruct st as [e|e|p [c|e] [e'|]];
      try (exists []; simpl; now rewrite app_nil_r).
    simpl. unfold tx_bind, tx_lift, execute. simpl.
    destruct (IH (insert_content repoURL p c s)) as [added Ha].
    exists (mkContentRecord (option_map id (repo_by_url repoURL (repos s))) p c :: added).
    rewrite Ha. simpl. now rewrite <- app_assoc.
Qed.

Lemma file_loop_all_ok (files : list (string * string)) :
  forall s,
    file_loop repoURL (map file_ok files) s =
    (mkStore (repos s)
             (repo_contents s ++
              map (content_row (option_map id (repo_by_url repoURL (repos s)))) files),
     Ok tt).
Proof.
  induction files as [|f files IH]; intros s.
  - simpl. unfold tx_ret. rewrite app_nil_r. now destruct s.
  - simpl. unfold tx_bind, tx_lift, execute. simpl.
    rewrite IH. simpl. now rewrite <- app_assoc.
Qed.

Lemma insert_repo_contents (h : string) (s : Store) :
  repo_contents (insert_repo repoURL h s) = repo_contents s.
Proof. unfold insert_repo. now destruct (repo_by_url repoURL (repos s)). Qed.

(** The body of the transaction, with the monadic plumbing unfolded. *)
Lemma AddRepo_body_eq (env : AddRepoEnv) (h : string) (s : Store) :
  AddRepo_body env repoURL h s =
  let lastIndexedCommitHash :=
    match select_err env with
    | Some _ => ""
    | None => select_last_indexed repoURL s
    end in
  if String.eqb lastIndexedCommitHash h then (s, Ok tt)
  else
    let s1 :=
      match insert_repo_err env with
      | Some _ => s
      | None => insert_repo repoURL h s
      end in
    match lsfiles_exec env with
    | Some e => (s1, Err e)
    | None => file_loop repoURL (file_steps env) s1
    end.
Proof.
  unfold AddRepo_body, tx_bind, discard_error, query, execute, tx_ret, tx_lift.
  destruct (select_err env); cbv zeta.
  all: match goal with |- context [String.eqb ?a ?b] => destruct (String.eqb a b) end.
  all: try reflexivity.
  all: destruct (insert_repo_err env); destruct (lsfiles_exec env); reflexivity.
Qed.

Lemma AddRepo_body_appends (env : AddRepoEnv) (h : string) (s : Store) :
  exists added,
    repo_contents (fst (AddRepo_body env repoURL h s)) = repo_contents s ++ added.
Proof.
  rewrite AddRepo_body_eq. cbv zeta.
  match goal with |- context [String.eqb ?a ?b] => destruct (String.eqb a b) end.
  - exists []. simpl. now rewrite app_nil_r.
  - set (s1 := match insert_repo_err env with
               | Some _ => s
               | None => insert_repo repoURL h s
               end).
    assert (Hs1 : repo_contents s1 = repo_contents s).
    { unfold s1. destruct (insert_repo_err env); [reflexivity|].
      apply insert_repo_contents. }
    destruct (lsfiles_exec env).
    + exists []. simpl. now rewrite Hs1, app_nil_r.
    + destruct (file_loop_appends (file_steps env) s1) as [added Ha].
      exists added. now rewrite Ha, Hs1.
Qed.

Lemma AddRepo_appends (env : AddRepoEnv) (db : Store) :
  exists added,
    repo_contents (fst (AddRepo env repoURL db)) = repo_contents db ++ added.
Proof.
  unfold AddRepo.
  destruct (latest_commit env) as [h|e]; [|exists []; simpl; now rewrite app_nil_r].
  destruct (pool_get env); [|exists []; simpl; now rewrite app_nil_r].
  destruct (AddRepo_body_appends env h db) as [added Ha].
  destruct (AddRepo_body env repoURL h db) as [working r]. simpl in *.
  destruct (commit_err env); simpl.
  - exists []. now rewrite app_nil_r.
  - now exists added.
Qed.

(** A call on a url that has a row whose stored hash differs from the
    observed head, when nothing fails. *)
Lemma AddRepo_changed_head (dir h : string) (files : list (string * string))
    (db : Store) (r : Repository) :
  repo_by_url repoURL (repos db) = Some r ->
  last_indexed_commit_hash r <> h ->
  AddRepo (succeeding dir h files) repoURL db =
  (mkStore (repos db) (repo_contents db ++ map (content_row (Some (id r))) files), None).
Proof.
  intros Hr Hne.
  unfold AddRepo, succeeding, latest_commit. simpl.
  unfold AddRepo_body, tx_bind, discard_error, query, execute. simpl.
  unfold select_last_indexed. rewrite Hr.
  apply String.eqb_neq in Hne. rewrite Hne.
  unfold insert_repo. rewrite Hr. simpl.
  rewrite file_loop_all_ok. simpl. now rewrite Hr.
Qed.

(** A call that finds a row whose stored hash is the observed head. *)
Lemma AddRepo_unchanged_head (env : AddRepoEnv) (h : string) (db : Store)
    (r : Repository) :
  latest_commit env = Ok h ->
  pool_get env = true ->
  select_err env = None ->
  repo_by_url repoURL (repos db) = Some r ->
  last_indexed_commit_hash r = h ->
  AddRepo env repoURL db = (db, None).
Proof.
  intros Hl Hp Hs Hr Hh.
  unfold AddRepo. rewrite Hl, Hp.
  unfold AddRepo_body, tx_bind, discard_error, query. rewrite Hs.
  unfold select_last_indexed. rewrite Hr, Hh, String.eqb_refl. simpl.
  now destruct (commit_err env).
Qed.

(** Whatever the body returns, when the COMMIT succeeds the store after the
    call is the store the body reached: [end] is never given the error. *)
Lemma AddRepo_commits_whatever_returned (env : AddRepoEnv) (h : string) (db : Store) :
  latest_commit env = Ok h ->
  pool_get env = true ->
  commit_err env = None ->
  AddRepo env repoURL db =
  (fst (AddRepo_body env repoURL h db), err_of (snd (AddRepo_body env repoURL h db))).
Proof.
  intros Hl Hp Hc. unfold AddRepo. rewrite Hl, Hp, Hc.
  now destruct (AddRepo_body env repoURL h db).
Qed.

Lemma repo_by_url_app_new (rs : list Repository) (r : Repository) :
  repo_by_url repoURL rs = None ->
  url r = repoURL ->
  repo_by_url repoURL (rs ++ [r]) = Some r.
Proof.
  intros Hn Hu. unfold repo_by_url in *.
  induction rs as [|x rs IH]; simpl in *.
  - now rewrite Hu, String.eqb_refl.
  - destruct (String.eqb (url x) repoURL); [discriminate | now apply IH].
Qed.

(** A call on a url without a row, with a non-empty head, when nothing
    fails: the row is created with the observed head. *)
Lemma AddRepo_new_url (dir h : string) (files : list (string * string)) (db : Store) :
  repo_by_url repoURL (repos db) = None ->
  h <> "" ->
  AddRepo (succeeding dir h files) repoURL db =
  (mkStore (repos db ++ [mkRepository (next_id (repos db)) repoURL h])
           (repo_contents db ++ map (content_row (Some (next_id (repos db)))) files),
   None).
Proof.
  intros Hr Hne.
  unfold AddRepo, succeeding, latest_commit. simpl.
  unfold AddRepo_body, tx_bind, discard_error, query, execute. simpl.
  unfold select_last_indexed. rewrite Hr.
  assert (Hf : String.eqb "" h = false)
    by (apply String.eqb_neq; congruence).
  rewrite Hf. unfold insert_repo. rewrite Hr. simpl.
  rewrite file_loop_all_ok. simpl.
  now rewrite (repo_by_url_app_new (repos db)
                 (mkRepository (next_id (repos db)) repoURL h) Hr eq_refl).
Qed.

(** X7: two calls in succession in which nothing fails, at the same
    non-empty head, on a url that had no row: the second one changes nothing
    and returns nil, whatever files it lists. *)
Lemma AddRepo_twice_new_url (dir dir' h : string) (files files' : list (string * string))
    (db : Store) :
  repo_by_url repoURL (repos db) = None ->
  h <> "" ->
  AddRepo (succeeding dir' h files') repoURL
          (fst (AddRepo (succeeding dir h files) repoURL db))
  = (fst (AddRepo (succeeding dir h files) repoURL db), None).
Proof.
  intros Hr Hne. rewrite (AddRepo_new_url dir h files db Hr Hne). simpl.
  apply (AddRepo_unchanged_head (succeeding dir' h files') h _
           (mkRepository (next_id (repos db)) repoURL h)); try reflexivity.
  simpl. now apply repo_by_url_app_new.
Qed.

End Ingestion.

(** ** Failures before the transaction *)

(** C5: when the clone, or after it the git log or the reading of its first
    commit, fails with [e], [AddRepo] returns [e] and the store is the one
    it was given: no row of [repos] and no row of [repo_contents] is
    written. *)
Theorem AddRepo_upstream_failure (env : AddRepoEnv) (repoURL dir : string)
    (db : Store) (e : error) :
  mkdir_temp env = Ok dir ->
  clone_exec env = Some e
  \/ (clone_exec env = None /\ gitlog_exec env = Some e)
  \/ (clone_exec env = None /\ gitlog_exec env = None /\ commit_next env = Err e) ->
  AddRepo env repoURL db = (db, Some e).
Proof.
  intros Hd H. unfold AddRepo, latest_commit. rewrite Hd. simpl.
  destruct H as [Hc | [[Hc Hg] | [Hc [Hg Hn]]]].
  - now rewrite Hc.
  - now rewrite Hc, Hg.
  - now rewrite Hc, Hg, Hn.
Qed.

Lemma AddRepo_upstream_failure_witness :
  AddRepo (mkAddRepoEnv (Ok "/tmp/mergestat-haystack-1")
             (Some "repository not found") None (Ok "") true None None None [] None)
          "https://example/missing"
          (mkStore [mkRepository 1 "https://example/repo" "c0ffee"]
                   [mkContentRecord (Some 1%Z) "a.txt" "foo"])
  = (mkStore [mkRepository 1 "https://example/repo" "c0ffee"]
             [mkContentRecord (Some 1%Z) "a.txt" "foo"],
     Some "repository not found").
Proof.
  apply (AddRepo_upstream_failure _ _ "/tmp/mergestat-haystack-1").
  - reflexivity.
  - left. reflexivity.
Defined.

(** ** Content rows are only ever appended *)

Lemma filter_path_app (q : string) (a b : list ContentRecord) :
  map path (filter (where_clause q) (a ++ b)) =
  map path (filter (where_clause q) a) ++ map path (filter (where_clause q) b).
Proof. now rewrite filter_app, map_app. Qed.

(** C10: [AddRepo] only appends to [repo_contents]: the table after any call
    is the table before it followed by the rows the call added, so whatever
    a search returned before the call it still returns after it; and a call
    that re-indexes a repository whose stored hash differs from the observed
    head appends one row per listed file and leaves every older row of that
    repository where it was. *)
Theorem AddRepo_keeps_content (env : AddRepoEnv) (repoURL : string) (db : Store) :
  (exists added,
     repo_contents (fst (AddRepo env repoURL db)) = repo_contents db ++ added)
  /\ (forall renv q paths,
        SearchAllRepoContents renv q db = Ok paths ->
        exists more,
          SearchAllRepoContents renv q (fst (AddRepo env repoURL db))
          = Ok (paths ++ more))
  /\ (forall dir h files r,
        env = succeeding dir h files ->
        repo_by_url repoURL (repos db) = Some r ->
        last_indexed_commit_hash r <> h ->
        AddRepo env repoURL db =
        (mkStore (repos db)
                 (repo_contents db ++ map (content_row (Some (id r))) files),
         None)).
Proof.
  destruct (AddRepo_appends repoURL env db) as [added Ha].
  split; [now exists added|]. split.
  - intros renv q paths Hs. unfold SearchAllRepoContents in *.
    destruct (read_pool_get renv); [|discriminate].
    destruct (read_exec_err renv); [discriminate|].
    injection Hs as <-. rewrite Ha, filter_path_app.
    now exists (map path (filter (where_clause q) added)).
  - intros dir h files r -> Hr Hne. now apply AddRepo_changed_head.
Qed.

Lemma AddRepo_keeps_content_witness :
  AddRepo (succeeding "/tmp/mergestat-haystack-2" "beef01" [("b.txt", "bar")])
          "https://example/repo"
          (mkStore [mkRepository 1 "https://example/repo" "c0ffee"]
                   [mkContentRecord (Some 1%Z) "a.txt" "foo"])
  = (mkStore [mkRepository 1 "https://example/repo" "c0ffee"]
             [mkContentRecord (Some 1%Z) "a.txt" "foo";
              mkContentRecord (Some 1%Z) "b.txt" "bar"],
     None).
Proof.
  apply (proj2 (proj2 (AddRepo_keeps_content
           (succeeding "/tmp/mergestat-haystack-2" "beef01" [("b.txt", "bar")])
           "https://example/repo"
           (mkStore [mkRepository 1 "https://example/repo" "c0ffee"]
                    [mkContentRecord (Some 1%Z) "a.txt" "foo"])))
           "/tmp/mergestat-haystack-2" "beef01" [("b.txt", "bar")]
           (mkRepository 1 "https://example/repo" "c0ffee")).
  - reflexivity.
  - reflexivity.
  - discriminate.
Defined.

(** ** The [repos] table: one row per url *)

Section Catalog.

Lemma repo_by_url_none (u : string) (rs : list Repository) :
  repo_by_url u rs = None -> ~ In u (map url rs).
Proof.
  unfold repo_by_url. induction rs as [|x rs IH]; simpl; [tauto|].
  destruct (String.eqb (url x) u) eqn:E; [discriminate|].
  intros Hn [Hx | Hin]; [|now apply IH].
  apply String.eqb_neq in E. congruence.
Qed.

Lemma repo_by_url_some (u : string) (rs : list Repository) (r : Repository) :
  repo_by_url u rs = Some r -> In r rs /\ url r = u.
Proof.
  unfold repo_by_url. intros H. apply find_some in H.
  destruct H as [Hin E]. now apply String.eqb_eq in E.
Qed.

Lemma insert_repo_unique (u h : string) (s : Store) :
  NoDup (map url (repos s)) -> NoDup (map url (repos (insert_repo u h s))).
Proof.
  intros Hnd. unfold insert_repo.
  destruct (repo_by_url u (repos s)) eqn:E; [exact Hnd|].
  simpl. rewrite map_app. simpl.
  apply NoDup_app; [exact Hnd | repeat constructor; simpl; tauto |].
  intros x Hx [<- | []]. now apply repo_by_url_none in E.
Qed.

(** What a call can do to [repos]: nothing, or the conflict-ignoring insert. *)
Lemma AddRepo_repos (env : AddRepoEnv) (u : string) (db : Store) :
  repos (fst (AddRepo env u db)) = repos db
  \/ exists h, repos (fst (AddRepo env u db)) = repos (insert_repo u h db).
Proof.
  unfold AddRepo.
  destruct (latest_commit env) as [h|e]; [|now left].
  destruct (pool_get env); [|now left].
  destruct (AddRepo_body env u h db) as [working r] eqn:Hb.
  destruct (commit_err env); simpl; [now left|].
  assert (Hw : working = fst (AddRepo_body env u h db)) by now rewrite Hb.
  rewrite Hw, AddRepo_body_eq. cbv zeta.
  match goal with |- context [String.eqb ?a ?b] => destruct (String.eqb a b) end;
    [now left|].
  destruct (insert_repo_err env), (lsfiles_exec env); simpl;
    rewrite ?file_loop_repos; try (now left); right; now exists h.
Qed.

Lemma AddRepo_unique (env : AddRepoEnv) (u : string) (db : Store) :
  NoDup (map url (repos db)) -> NoDup (map url (repos (fst (AddRepo env u db)))).
Proof.
  intros Hnd. destruct (AddRepo_repos env u db) as [-> | [h ->]];
    [exact Hnd | now apply insert_repo_unique].
Qed.

(** X1: whatever calls were made on a new pile, with whatever outcomes, no
    url is listed twice. *)
Lemma ListRepos_no_duplicates (calls : list (AddRepoEnv * string)) (renv : ReadEnv)
    (urls : list string) :
  ListRepos renv (AddRepo_all calls empty_store) = Ok urls -> NoDup urls.
Proof.
  assert (Hinv : forall cs db, NoDup (map url (repos db)) ->
                   NoDup (map url (repos (AddRepo_all cs db)))).
  { induction cs as [|[env u] cs IH]; intros db Hnd; simpl; [exact Hnd|].
    now apply IH, AddRepo_unique. }
  unfold ListRepos. destruct (read_pool_get renv); [|discriminate].
  destruct (read_exec_err renv); [discriminate|].
  intros H; injection H as <-. apply Hinv. constructor.
Qed.

(** A row, once there, is never removed. *)
Lemma AddRepo_row_stays (env : AddRepoEnv) (u v : string) (db : Store) :
  In v (map url (repos db)) -> In v (map url (repos (fst (AddRepo env u db)))).
Proof.
  intros Hin. destruct (AddRepo_repos env u db) as [-> | [h ->]]; [exact Hin|].
  unfold insert_repo. destruct (repo_by_url u (repos db)); [exact Hin|].
  simpl. rewrite map_app. apply in_or_app. now left.
Qed.

(** X3: a call that returns nil after a non-empty head was observed, in
    which neither of the two unchecked statements nor the COMMIT failed,
    leaves a row for its url. *)
Lemma AddRepo_success_lists_url (env : AddRepoEnv) (u h : string) (db : Store) :
  latest_commit env = Ok h -> h <> "" ->
  select_err env = None -> insert_repo_err env = None -> commit_err env = None ->
  snd (AddRepo env u db) = None ->
  In u (map url (repos (fst (AddRepo env u db)))).
Proof.
  intros Hl Hne Hs Hi Hc. unfold AddRepo. rewrite Hl, Hc.
  destruct (pool_get env); [|discriminate].
  destruct (AddRepo_body env u h db) as [working r] eqn:Hb. simpl.
  rewrite AddRepo_body_eq, Hs, Hi in Hb. cbv zeta in Hb.
  destruct (String.eqb (select_last_indexed u db) h) eqn:E.
  - injection Hb as <- <-. intros _.
    apply String.eqb_eq in E. unfold select_last_indexed in E.
    destruct (repo_by_url u (repos db)) as [x|] eqn:Hx; [|congruence].
    apply repo_by_url_some in Hx. destruct Hx as [Hin <-]. now apply in_map.
  - destruct (lsfiles_exec env).
    + injection Hb as <- <-. discriminate.
    + intros _.
      assert (Hw : working = fst (file_loop u (file_steps env) (insert_repo u h db)))
        by now rewrite Hb.
      rewrite Hw, file_loop_repos. unfold insert_repo.
      destruct (repo_by_url u (repos db)) as [x|] eqn:Hx.
      * apply repo_by_url_some in Hx. destruct Hx as [Hin <-]. now apply in_map.
      * simpl. rewrite map_app. apply in_or_app. right. simpl. now left.
Qed.

End Catalog.

(** * Concrete runs *)

Section Runs.

Lemma indexed_once_reached :
  AddRepo (succeeding staging "c0ffee" [("a.txt", "foo")]) example_repo empty_store
  = (indexed_once, None).
Proof. reflexivity. Qed.

(** C1: a call that ends with a file read error after the transaction has
    begun.  [end] receives the never-assigned [txErr], which is nil, and
    commits: the new [repos] row with the head hash and the content row
    written before the failure are in the store, which is not the store
    from before the call. *)
Theorem AddRepo_read_failure_commits :
  AddRepo read_fails example_repo empty_store
  = (mkStore [mkRepository 1 example_repo "c0ffee"]
             [mkContentRecord (Some 1%Z) "a.txt" "foo"],
     Some "read vendor/lib: is a directory")
  /\ fst (AddRepo read_fails example_repo empty_store) <> empty_store.
Proof. split; [reflexivity | discriminate]. Qed.

(** C9: a pile on which no call has succeeded is not empty for [ListRepos].
    The only call made on the new pile returns the read error, its row of
    [repos] is committed all the same, and [ListRepos] returns the url. *)
Theorem ListRepos_after_failed_ingestion :
  snd (AddRepo read_fails example_repo empty_store)
  = Some "read vendor/lib: is a directory"
  /\ ListRepos healthy (fst (AddRepo read_fails example_repo empty_store))
     = Ok [example_repo].
Proof. split; reflexivity. Qed.

(** C2: re-indexing [example_repo], stored at [c0ffee], once its head is
    [beef01]: the call succeeds and writes the new content row, and the
    stored hash is still [c0ffee]. *)
Theorem AddRepo_reindex_keeps_stored_hash :
  AddRepo (succeeding staging "beef01" [("a.txt", "foo v2")]) example_repo indexed_once
  = (mkStore [mkRepository 1 example_repo "c0ffee"]
             [mkContentRecord (Some 1%Z) "a.txt" "foo";
              mkContentRecord (Some 1%Z) "a.txt" "foo v2"],
     None)
  /\ select_last_indexed example_repo
       (fst (AddRepo (succeeding staging "beef01" [("a.txt", "foo v2")])
               example_repo indexed_once))
     = "c0ffee".
Proof. split; reflexivity. Qed.

(** C3: with a failing change-detection SELECT, and with a failing INSERT
    into [repos], [AddRepo] goes on and returns nil. *)
Theorem AddRepo_discards_statement_errors :
  AddRepo select_fails example_repo indexed_once
  = (mkStore [mkRepository 1 example_repo "c0ffee"]
             [mkContentRecord (Some 1%Z) "a.txt" "foo";
              mkContentRecord (Some 1%Z) "a.txt" "foo"],
     None)
  /\ AddRepo insert_fails example_repo empty_store
     = (mkStore [] [mkContentRecord None "a.txt" "foo"], None).
Proof. split; reflexivity. Qed.

(** C4: two calls in succession that both observe head [beef01], on the
    pile that holds [example_repo] at [c0ffee]: both return nil, and the
    second one inserts the file again. *)
Theorem AddRepo_twice_same_head_inserts_again :
  let env := succeeding staging "beef01" [("a.txt", "foo v2")] in
  let first := AddRepo env example_repo indexed_once in
  let second := AddRepo env example_repo (fst first) in
  snd first = None
  /\ snd second = None
  /\ map url (repos (fst second)) = [example_repo]
  /\ repo_contents (fst second)
     = repo_contents (fst first) ++ [mkContentRecord (Some 1%Z) "a.txt" "foo v2"].
Proof. repeat split. Qed.

(** C6: [AddRepo] returns nil for [example_repo] and [ListRepos] then
    returns a sequence that does not contain it. *)
Theorem AddRepo_success_without_row :
  snd (AddRepo insert_fails_no_files example_repo empty_store) = None
  /\ ListRepos healthy (fst (AddRepo insert_fails_no_files example_repo empty_store))
     = Ok [].
Proof. split; reflexivity. Qed.

End Runs.

(** * More on AddRepo: what a call can add *)

Section Rows.

Lemma file_loop_ingested (u : string) (steps : list file_step) :
  forall s,
    fst (file_loop u steps s) =
    mkStore (repos s)
            (repo_contents s ++
             map (content_row (option_map id (repo_by_url u (repos s)))) (ingested steps)).
Proof.
  induction steps as [|st steps IH]; intros s.
  - simpl. rewrite app_nil_r. now destruct s.
  - destruct st as [e|e|p [c|e] [e'|]];
      try (simpl; rewrite app_nil_r; now destruct s).
    simpl. unfold tx_bind, tx_lift, execute. simpl.
    rewrite IH. simpl. now rewrite <- app_assoc.
Qed.

(** The store the body of the transaction reaches. *)
Lemma AddRepo_body_store (env : AddRepoEnv) (u h : string) (s : Store) :
  fst (AddRepo_body env u h s) = s
  \/ exists s1 fs,
       (s1 = s \/ s1 = insert_repo u h s)
       /\ (fs = [] \/ fs = ingested (file_steps env))
       /\ fst (AddRepo_body env u h s) =
          mkStore (repos s1)
                  (repo_contents s ++
                   map (content_row (option_map id (repo_by_url u (repos s1)))) fs).
Proof.
  rewrite AddRepo_body_eq. cbv zeta.
  match goal with |- context [String.eqb ?a ?b] => destruct (String.eqb a b) end;
    [now left|]. right.
  set (s1 := match insert_repo_err env with
             | Some _ => s
             | None => insert_repo u h s
             end).
  assert (H1 : s1 = s \/ s1 = insert_repo u h s)
    by (unfold s1; destruct (insert_repo_err env); auto).
  assert (Hc : repo_contents s1 = repo_contents s)
    by (destruct H1 as [-> | ->]; [reflexivity | apply insert_repo_contents]).
  destruct (lsfiles_exec env).
  - exists s1, []. repeat split; auto. simpl. rewrite app_nil_r, <- Hc. now destruct s1.
  - exists s1, (ingested (file_steps env)). repeat split; auto.
    now rewrite file_loop_ingested, Hc.
Qed.

(** The store after a call, in terms of the store before it. *)
Lemma AddRepo_store (env : AddRepoEnv) (u : string) (db : Store) :
  fst (AddRepo env u db) = db
  \/ exists h s1 fs,
       latest_commit env = Ok h
       /\ (s1 = db \/ s1 = insert_repo u h db)
       /\ (fs = [] \/ fs = ingested (file_steps env))
       /\ fst (AddRepo env u db) =
          mkStore (repos s1)
                  (repo_contents db ++
                   map (content_row (option_map id (repo_by_url u (repos s1)))) fs).
Proof.
  unfold AddRepo.
  destruct (latest_commit env) as [h|e]; [|now left].
  destruct (pool_get env); [|now left].
  destruct (AddRepo_body_store env u h db) as [Hb | [s1 [fs [H1 [Hf Hb]]]]];
    destruct (AddRepo_body env u h db) as [working r]; simpl in Hb;
    destruct (commit_err env); simpl; try (now left).
  right. exists h, s1, fs. auto.
Qed.

Lemma insert_repo_repos (u h : string) (s : Store) :
  repos (insert_repo u h s) = repos s
  \/ (repo_by_url u (repos s) = None
      /\ repos (insert_repo u h s) = repos s ++ [mkRepository (next_id (repos s)) u h]).
Proof.
  unfold insert_repo. destruct (repo_by_url u (repos s)); [now left | now right].
Qed.

(** What a call does to [repos]. *)
Lemma AddRepo_repos_shape (env : AddRepoEnv) (u : string) (db : Store) :
  repos (fst (AddRepo env u db)) = repos db
  \/ exists h,
       latest_commit env = Ok h
       /\ repo_by_url u (repos db) = None
       /\ repos (fst (AddRepo env u db)) =
          repos db ++ [mkRepository (next_id (repos db)) u h].
Proof.
  destruct (AddRepo_store env u db) as [-> | [h [s1 [fs [Hl [H1 [_ ->]]]]]]];
    [now left|]. simpl.
  destruct H1 as [-> | ->]; [now left|].
  destruct (insert_repo_repos u h db) as [-> | [Hn ->]]; [now left|].
  right. now exists h.
Qed.

Lemma AddRepo_all_repos_prefix (calls : list (AddRepoEnv * string)) :
  forall db, exists added, repos (AddRepo_all calls db) = repos db ++ added.
Proof.
  induction calls as [|[env u] calls IH]; intros db; simpl.
  - exists []. now rewrite app_nil_r.
  - destruct (IH (fst (AddRepo env u db))) as [added Ha]. rewrite Ha.
    destruct (AddRepo_repos_shape env u db) as [-> | [h [_ [_ ->]]]].
    + now exists added.
    + rewrite <- app_assoc. now eexists.
Qed.

Lemma repo_by_url_app (u : string) (rs added : list Repository) (r : Repository) :
  repo_by_url u rs = Some r -> repo_by_url u (rs ++ added) = Some r.
Proof.
  unfold repo_by_url. induction rs as [|x rs IH]; simpl; [discriminate|].
  destruct (String.eqb (url x) u); [auto | exact IH].
Qed.

Lemma id_below_next (rs : list Repository) (r : Repository) :
  In r rs -> (id r < next_id rs)%Z.
Proof.
  unfold next_id. induction rs as [|x rs IH]; simpl; [tauto|].
  intros [-> | Hin]; [lia | specialize (IH Hin); lia].
Qed.

Lemma next_id_positive (rs : list Repository) :
  (forall r, In r rs -> 1 <= id r)%Z -> (1 <= next_id rs)%Z.
Proof.
  unfold next_id. induction rs as [|x rs IH]; simpl; [lia|].
  intros H. assert (1 <= id x)%Z by (apply H; now left). lia.
Qed.

End Rows.

(** * Properties of the ingestion beyond single calls *)

Section Piles.

(** X2: through any sequence of calls, whatever their outcomes, [repos] only
    grows at its end: no row is removed or rewritten, and the row found for
    a url, once there, is the row found for it ever after. *)
Theorem AddRepo_all_keeps_rows (calls : list (AddRepoEnv * string)) (db : Store) :
  (exists added, repos (AddRepo_all calls db) = repos db ++ added)
  /\ (forall u r, repo_by_url u (repos db) = Some r ->
        repo_by_url u (repos (AddRepo_all calls db)) = Some r).
Proof.
  destruct (AddRepo_all_repos_prefix calls db) as [added Ha].
  split; [now exists added|].
  intros u r Hr. rewrite Ha. now apply repo_by_url_app.
Qed.

Lemma AddRepo_all_keeps_rows_witness :
  repo_by_url example_repo
    (repos (AddRepo_all
              [(succeeding staging "beef01" [("a.txt", "foo v2")], example_repo);
               (read_fails, "https://example/other")]
              indexed_once))
  = Some (mkRepository 1 example_repo "c0ffee").
Proof.
  apply (proj2 (AddRepo_all_keeps_rows
                  [(succeeding staging "beef01" [("a.txt", "foo v2")], example_repo);
                   (read_fails, "https://example/other")]
                  indexed_once)).
  reflexivity.
Defined.

(** X4: one call leaves [repos] as it was or appends exactly one row; the
    row is for the call's own url, which had none, and carries the next
    rowid and the head commit the call observed. *)
Theorem AddRepo_adds_at_most_own_row (env : AddRepoEnv) (u : string) (db : Store) :
  repos (fst (AddRepo env u db)) = repos db
  \/ exists h,
       latest_commit env = Ok h
       /\ repo_by_url u (repos db) = None
       /\ repos (fst (AddRepo env u db)) =
          repos db ++ [mkRepository (next_id (repos db)) u h].
Proof. apply AddRepo_repos_shape. Qed.

Lemma AddRepo_ids_in_order (env : AddRepoEnv) (u : string) (db : Store) :
  ids_in_order db -> ids_in_order (fst (AddRepo env u db)).
Proof.
  intros [Hnd Hpos].
  destruct (AddRepo_repos_shape env u db) as [He | [h [_ [_ He]]]];
    unfold ids_in_order; rewrite He; [now split|].
  split.
  - rewrite map_app. simpl. apply NoDup_app; [exact Hnd | repeat constructor; simpl; tauto|].
    intros x Hx [<- | []]. apply in_map_iff in Hx. destruct Hx as [r [Hid Hin]].
    apply id_below_next in Hin. lia.
  - intros r Hin. apply in_app_or in Hin. destruct Hin as [Hin | [<- | []]];
      [now apply Hpos | simpl; now apply next_id_positive].
Qed.

(** X5: in every pile reached from the empty one, the ids of [repos] are
    pairwise distinct and at least 1. *)
Theorem repos_ids_distinct (calls : list (AddRepoEnv * string)) :
  NoDup (map id (repos (AddRepo_all calls empty_store)))
  /\ forall r, In r (repos (AddRepo_all calls empty_store)) -> (1 <= id r)%Z.
Proof.
  assert (Hinv : forall cs db, ids_in_order db -> ids_in_order (AddRepo_all cs db)).
  { induction cs as [|[env u] cs IH]; intros db H; simpl; [exact H|].
    now apply IH, AddRepo_ids_in_order. }
  apply (Hinv calls empty_store). split; [constructor | intros r []].
Qed.

Lemma AddRepo_attributed (env : AddRepoEnv) (u : string) (db : Store) :
  attributed db -> attributed (fst (AddRepo env u db)).
Proof.
  intros Hinv.
  destruct (AddRepo_store env u db) as [-> | [h [s1 [fs [_ [H1 [_ ->]]]]]]];
    [exact Hinv|].
  assert (Hsub : forall r, In r (repos db) -> In r (repos s1)).
  { destruct H1 as [-> | ->]; [auto|].
    destruct (insert_repo_repos u h db) as [-> | [_ ->]]; [auto|].
    intros r Hr. apply in_or_app. now left. }
  intros c Hc. simpl in *. apply in_app_or in Hc. destruct Hc as [Hc | Hc].
  - destruct (Hinv c Hc) as [Hn | [r [Hr Hid]]]; [now left|].
    right. exists r. auto.
  - apply in_map_iff in Hc. destruct Hc as [f [<- _]]. simpl.
    destruct (repo_by_url u (repos s1)) as [r|] eqn:Hr; [|now left].
    right. exists r. split; [|reflexivity]. now apply repo_by_url_some in Hr.
Qed.

(** X6: in every pile reached from the empty one, each row of
    [repo_contents] has a NULL [repo_id] or the id of a row of [repos]. *)
Theorem contents_attributed (calls : list (AddRepoEnv * string)) (c : ContentRecord) :
  In c (repo_contents (AddRepo_all calls empty_store)) ->
  repo_id c = None
  \/ exists r, In r (repos (AddRepo_all calls empty_store)) /\ repo_id c = Some (id r).
Proof.
  assert (Hinv : forall cs db, attributed db -> attributed (AddRepo_all cs db)).
  { induction cs as [|[env u] cs IH]; intros db H; simpl; [exact H|].
    now apply IH, AddRepo_attributed. }
  apply (Hinv calls empty_store). intros x [].
Qed.

Lemma contents_attributed_witness :
  repo_id (mkContentRecord (Some 1%Z) "a.txt" "foo") = None
  \/ exists r,
       In r (repos (AddRepo_all [(read_fails, example_repo)] empty_store))
       /\ repo_id (mkContentRecord (Some 1%Z) "a.txt" "foo") = Some (id r).
Proof.
  apply (contents_attributed [(read_fails, example_repo)]
           (mkContentRecord (Some 1%Z) "a.txt" "foo")).
  simpl. now left.
Defined.

(** X10: the rows one call adds to [repo_contents] all carry the same
    [repo_id], the id of the row found for the call's url in the store the
    call leaves (NULL when there is none); they are the files listed before
    the first turn of the loop that fails, in listing order, or no row at
    all. *)
Theorem AddRepo_added_rows (env : AddRepoEnv) (u : string) (db : Store) :
  exists fs,
    (fs = [] \/ fs = ingested (file_steps env))
    /\ repo_contents (fst (AddRepo env u db)) =
       repo_contents db ++
       map (content_row
              (option_map id (repo_by_url u (repos (fst (AddRepo env u db)))))) fs.
Proof.
  destruct (AddRepo_store env u db) as [-> | [h [s1 [fs [_ [_ [Hf ->]]]]]]].
  - exists []. split; [now left|]. simpl. now rewrite app_nil_r.
  - exists fs. split; [exact Hf | reflexivity].
Qed.

(** X8: any number of calls for a url that each observe the head stored for
    it, get a connection and run the SELECT, leave the pile as it is and
    return nil, whatever else the environment holds. *)
Theorem AddRepo_at_stored_head (envs : list AddRepoEnv) (u h : string)
    (db : Store) (r : Repository) :
  repo_by_url u (repos db) = Some r ->
  last_indexed_commit_hash r = h ->
  Forall (fun env => latest_commit env = Ok h
                     /\ pool_get env = true
                     /\ select_err env = None) envs ->
  AddRepo_all (map (fun env => (env, u)) envs) db = db
  /\ Forall (fun env => AddRepo env u db = (db, None)) envs.
Proof.
  intros Hr Hh Hall.
  assert (Hone : Forall (fun env => AddRepo env u db = (db, None)) envs).
  { apply Forall_impl with (2 := Hall). intros env [Hl [Hp Hs]].
    now apply (AddRepo_unchanged_head u env h db r). }
  split; [|exact Hone].
  induction Hone as [|env envs He _ IH]; simpl; [reflexivity|].
  rewrite He. simpl. apply IH. now inversion Hall.
Qed.

Lemma AddRepo_at_stored_head_witness :
  AddRepo_all
    (map (fun env => (env, example_repo))
         [succeeding staging "c0ffee" [("a.txt", "foo")]; read_fails])
    indexed_once
  = indexed_once.
Proof.
  apply (AddRepo_at_stored_head
           [succeeding staging "c0ffee" [("a.txt", "foo")]; read_fails]
           example_repo "c0ffee" indexed_once
           (mkRepository 1 example_repo "c0ffee")).
  - reflexivity.
  - reflexivity.
  - repeat constructor.
Defined.

(** X14: a call that gets no head commit, or no connection, or whose COMMIT
    fails, leaves the store exactly as it was. *)
Theorem AddRepo_without_commit (env : AddRepoEnv) (u : string) (db : Store) :
  (exists e, latest_commit env = Err e)
  \/ pool_get env = false
  \/ (exists e, commit_err env = Some e) ->
  fst (AddRepo env u db) = db.
Proof.
  intros H. unfold AddRepo.
  destruct (latest_commit env) as [h|e]; [|reflexivity].
  destruct (pool_get env); [|reflexivity].
  destruct H as [[e He] | [Hp | [e He]]]; try discriminate.
  rewrite He. now destruct (AddRepo_body env u h db).
Qed.

Lemma AddRepo_without_commit_witness :
  fst (AddRepo
         (mkAddRepoEnv (Ok staging) None None (Ok "beef01") true None None None
            [NextFile "a.txt" (Ok "foo v2") None] (Some "interrupted"))
         example_repo indexed_once)
  = indexed_once.
Proof.
  apply AddRepo_without_commit. right. right. now exists "interrupted".
Defined.

End Piles.

(** * A new pile, and the search *)

Section Searching.

Lemma where_clause_empty_query (r : ContentRecord) : where_clause "" r = true.
Proof. unfold where_clause. simpl lower at 2. now rewrite instr_empty_needle. Qed.

Lemma filter_all {A : Type} (f : A -> bool) (l : list A) :
  (forall x, f x = true) -> filter f l = l.
Proof.
  intros H. induction l as [|x l IH]; simpl; [reflexivity|]. now rewrite H, IH.
Qed.

Lemma search_content_rows (q : string) (rid : option Z) (files : list (string * string)) :
  map path (filter (where_clause q) (map (content_row rid) files)) =
  map fst (filter (fun f => (0 <? instr (lower (snd f)) (lower q))%Z) files).
Proof.
  induction files as [|f files IH]; simpl; [reflexivity|].
  unfold where_clause at 1. simpl.
  destruct (0 <? instr (lower (snd f)) (lower q))%Z; simpl; now rewrite IH.
Qed.

(** X9: on a new pile, a call for [u] in which nothing fails and whose head
    is not the empty string returns nil; [ListRepos] then returns exactly
    [u]; and a search for a query that does not begin with a continuation
    byte returns, in listing order, the paths of exactly the listed files
    whose lower-cased content contains the lower-cased query. *)
Theorem new_pile_single_repo (dir h u : string) (files : list (string * string)) :
  h <> "" ->
  let after := AddRepo (succeeding dir h files) u empty_store in
  snd after = None
  /\ ListRepos healthy (fst after) = Ok [u]
  /\ forall q,
       starts_with_continuation q = false ->
       exists paths,
         SearchAllRepoContents healthy q (fst after) = Ok paths
         /\ selects (matches_ignoring_case q)
                    (map (content_row (Some 1%Z)) files) paths.
Proof.
  intros Hne after. unfold after.
  rewrite (AddRepo_new_url u dir h files empty_store eq_refl Hne).
  cbn [fst snd]. repeat split. intros q Hq.
  exists (map path (filter (where_clause q) (map (content_row (Some 1%Z)) files))).
  split; [reflexivity | now apply filter_selects].
Qed.

Lemma new_pile_single_repo_witness :
  ListRepos healthy
    (fst (AddRepo (succeeding staging "c0ffee" [("a.txt", "foo"); ("b.txt", "bar")])
            example_repo empty_store))
  = Ok [example_repo]
  /\ selects (matches_ignoring_case "foo")
       (map (content_row (Some 1%Z)) [("a.txt", "foo"); ("b.txt", "bar")])
       ["a.txt"].
Proof.
  assert (Hne : "c0ffee" <> "") by discriminate.
  destruct (new_pile_single_repo staging "c0ffee" example_repo
              [("a.txt", "foo"); ("b.txt", "bar")] Hne) as [_ [Hl Hs]].
  split; [exact Hl|].
  destruct (Hs "foo" eq_refl) as [paths [Hp Hsel]].
  vm_compute in Hp. injection Hp as <-. exact Hsel.
Defined.

Lemma string_app_assoc (a b c : string) :
  ((a ++ b) ++ c)%string = (a ++ (b ++ c))%string.
Proof. induction a as [|x a IH]; simpl; [reflexivity | now rewrite IH]. Qed.

Lemma occurs_in_trans (a b c : string) :
  occurs_in a b -> occurs_in b c -> occurs_in a c.
Proof.
  intros [p1 [s1 ->]] [p2 [s2 ->]].
  exists (p2 ++ p1)%string, (s1 ++ s2)%string.
  now rewrite !string_app_assoc.
Qed.

(** X11: a query that contains another one, case ignored, selects no record
    the contained one does not select, provided the contained one does not
    begin with a continuation byte: every path returned for the longer
    query is then returned for the shorter. *)
Theorem Search_narrows (env : ReadEnv) (q q' : string) (db : Store)
    (paths paths' : list string) :
  starts_with_continuation q = false ->
  occurs_in (lower q) (lower q') ->
  SearchAllRepoContents env q db = Ok paths ->
  SearchAllRepoContents env q' db = Ok paths' ->
  (forall r, where_clause q' r = true -> where_clause q r = true)
  /\ incl paths' paths.
Proof.
  intros Hq Hocc Hs Hs'.
  assert (Himp : forall r, where_clause q' r = true -> where_clause q r = true).
  { intros r H. apply where_clause_matches in H. apply where_clause_iff; [exact Hq|].
    unfold matches_ignoring_case in *. rewrite !lower_lowercased in Hocc.
    now apply occurs_in_trans with (lowercased q'). }
  split; [exact Himp|].
  unfold SearchAllRepoContents in *.
  destruct (read_pool_get env); [|discriminate].
  destruct (read_exec_err env); [discriminate|].
  injection Hs as <-. injection Hs' as <-.
  intros p Hp. apply in_map_iff in Hp. destruct Hp as [r [<- Hr]].
  apply filter_In in Hr. destruct Hr as [Hin Hw].
  apply in_map, filter_In. auto.
Qed.

Lemma Search_narrows_witness :
  incl ["greeting.txt"] ["greeting.txt"; "help.txt"].
Proof.
  apply (Search_narrows healthy "HEL" "Hello"
           (mkStore [] [mkContentRecord (Some 1%Z) "greeting.txt" "Oh, Hello there";
                        mkContentRecord (Some 1%Z) "help.txt" "HELP"])
           ["greeting.txt"; "help.txt"] ["greeting.txt"]).
  - reflexivity.
  - exists "", "lo". reflexivity.
  - reflexivity.
  - reflexivity.
Defined.

Lemma lower_byte_idempotent (c : ascii) : lower_byte (lower_byte c) = lower_byte c.
Proof.
  destruct c as [[] [] [] [] [] [] [] []]; reflexivity.
Qed.

Lemma lower_idempotent (s : string) : lower (lower s) = lower s.
Proof.
  induction s as [|c s IH]; simpl; [reflexivity|].
  now rewrite lower_byte_idempotent, IH.
Qed.

Lemma filter_ext_all {A : Type} (f g : A -> bool) (l : list A) :
  (forall x, f x = g x) -> filter f l = filter g l.
Proof.
  intros H. induction l as [|x l IH]; simpl; [reflexivity|]. now rewrite H, IH.
Qed.

(** X12: the result of a search depends on the query only through its
    lower-cased form: two queries that differ in the case of ASCII letters
    give the same result, and so do a query and its lower-cased form. *)
Theorem Search_query_case (env : ReadEnv) (q q' : string) (db : Store) :
  lower q = lower q' ->
  SearchAllRepoContents env q db = SearchAllRepoContents env q' db
  /\ SearchAllRepoContents env (lower q) db = SearchAllRepoContents env q db.
Proof.
  intros Hl. unfold SearchAllRepoContents.
  destruct (read_pool_get env); [|now split].
  destruct (read_exec_err env); [now split|].
  split; f_equal; f_equal; apply filter_ext_all; intros r; unfold where_clause.
  - now rewrite Hl.
  - now rewrite lower_idempotent.
Qed.

Lemma Search_query_case_witness :
  SearchAllRepoContents healthy "HELLO" indexed_once
  = SearchAllRepoContents healthy "hello" indexed_once.
Proof.
  apply (Search_query_case healthy "HELLO" "hello" indexed_once). reflexivity.
Defined.

Lemma lowercased_length (s : string) : String.length (lowercased s) = String.length s.
Proof. induction s as [|c s IH]; simpl; [reflexivity | now rewrite IH]. Qed.

(** X13: a record is never selected for a query longer than its content;
    a record with empty content is selected for the empty query only. *)
Theorem Search_query_too_long (q : string) (r : ContentRecord) :
  (String.length (content r) < String.length q -> where_clause q r = false)
  /\ (content r = "" -> (where_clause q r = true <-> q = "")).
Proof.
  assert (Hlen : where_clause q r = true ->
                 String.length q <= String.length (content r)).
  { intros H. apply where_clause_matches in H. destruct H as [pre [suf H]].
    apply (f_equal String.length) in H.
    rewrite !append_length, !lowercased_length in H. lia. }
  split.
  - intros Hlt. destruct (where_clause q r) eqn:E; [|reflexivity].
    specialize (Hlen eq_refl). lia.
  - intros Hc. split.
    + intros H. specialize (Hlen H). rewrite Hc in Hlen. simpl in Hlen.
      destruct q; [reflexivity | simpl in Hlen; lia].
    + intros ->. apply where_clause_empty_query.
Qed.

Lemma Search_query_too_long_witness :
  where_clause "food" (mkContentRecord (Some 1%Z) "a.txt" "foo") = false.
Proof.
  apply (Search_query_too_long "food" (mkContentRecord (Some 1%Z) "a.txt" "foo")).
  simpl. lia.
Defined.

(** X25: a query that begins with a continuation byte selects exactly the
    records whose lower-cased content begins with the lower-cased query: it
    is matched at the first byte of the content and nowhere else. *)
Theorem Search_continuation_query (q : string) (r : ContentRecord) :
  starts_with_continuation q = true ->
  (where_clause q r = true
   <-> String.prefix (lowercased q) (lowercased (content r)) = true).
Proof.
  intros Hq. unfold where_clause. rewrite Z.ltb_lt, <- !lower_lowercased.
  apply instr_continuation_needle. now rewrite lower_starts_with_continuation.
Qed.

Lemma Search_continuation_query_witness :
  where_clause continuation_query
    (mkContentRecord (Some 1%Z) "tail.bin" (continuation_query ++ "Z")%string) = true
  /\ where_clause continuation_query cafe_record = false.
Proof.
  split.
  - apply (Search_continuation_query continuation_query
             (mkContentRecord (Some 1%Z) "tail.bin" (continuation_query ++ "Z")%string));
      reflexivity.
  - reflexivity.
Defined.

End Searching.

(** * Opening a pile *)

Section Opening.

Lemma apply_options_app (env : OpenEnv) (a b : list openOption) (p : Pile) :
  apply_options env (a ++ b) p =
  result_bind (apply_options env a p) (apply_options env b).
Proof.
  revert p. induction a as [|o a IH]; intros p; simpl; [reflexivity|].
  destruct (o env p); simpl; [apply IH | reflexivity].
Qed.

Lemma schema_idempotent (d : Database) : schema (schema d) = schema d.
Proof. destruct d as [[r|] [c|]]; reflexivity. Qed.

Lemma schema_rows (d : Database) : store_of (schema d) = store_of d.
Proof. destruct d as [[r|] [c|]]; reflexivity. Qed.

Lemma schema_database_of (s : Store) : schema (database_of s) = database_of s.
Proof. reflexivity. Qed.

Lemma ensureSchema_cases (env : OpenEnv) (d : Database) :
  (exists e, ensureSchema env d = (d, Some e)) \/ ensureSchema env d = (schema d, None).
Proof.
  unfold ensureSchema. destruct (schema_pool_get env); [|left; now eexists].
  destruct (schema_script_err env); [left; now eexists | now right].
Qed.

(** The result of [Open] once the pile after the options is known. *)
Lemma Open_cases (env : OpenEnv) (opts : list openOption) (d : Database) :
  (fst (Open env opts d) = d /\ exists e, snd (Open env opts d) = Err e)
  \/ (fst (Open env opts d) = schema d
      /\ exists p0 c dir,
           apply_options env opts (mkPile None "") = Ok p0
           /\ (c = default_connection /\ pool p0 = None \/ pool p0 = Some c)
           /\ (os_MkdirTemp env = Ok dir /\ clonePath p0 = ""
               \/ dir = clonePath p0 /\ clonePath p0 <> "")
           /\ snd (Open env opts d) = Ok (mkPile (Some c) dir)).
Proof.
  unfold Open.
  destruct (apply_options env opts (mkPile None "")) as [p0|e];
    [|left; split; [reflexivity | now eexists]].
  destruct p0 as [[c|] cp]; simpl.
  - destruct (String.eqb cp "") eqn:Ecp.
    + apply String.eqb_eq in Ecp. subst cp.
      destruct (os_MkdirTemp env) as [dir|e] eqn:Et; simpl;
        [|left; split; [reflexivity | now eexists]].
      destruct (ensureSchema_cases env d) as [[e ->] | ->]; simpl;
        [left; split; [reflexivity | now eexists]|].
      right. split; [reflexivity|]. exists (mkPile (Some c) ""), c, dir. simpl. auto 6.
    + apply String.eqb_neq in Ecp.
      destruct (ensureSchema_cases env d) as [[e ->] | ->]; simpl;
        [left; split; [reflexivity | now eexists]|].
      right. split; [reflexivity|]. exists (mkPile (Some c) cp), c, cp. simpl. auto 6.
  - unfold WithConnection. simpl.
    destruct (sqlitex_Open env default_connection);
      [left; split; [reflexivity | now eexists]|]. simpl.
    destruct (String.eqb cp "") eqn:Ecp.
    + apply String.eqb_eq in Ecp. subst cp.
      destruct (os_MkdirTemp env) as [dir|e] eqn:Et; simpl;
        [|left; split; [reflexivity | now eexists]].
      destruct (ensureSchema_cases env d) as [[e ->] | ->]; simpl;
        [left; split; [reflexivity | now eexists]|].
      right. split; [reflexivity|].
      exists (mkPile None ""), default_connection, dir. simpl. auto 6.
    + apply String.eqb_neq in Ecp.
      destruct (ensureSchema_cases env d) as [[e ->] | ->]; simpl;
        [left; split; [reflexivity | now eexists]|].
      right. split; [reflexivity|].
      exists (mkPile None cp), default_connection, cp. simpl. auto 6.
Qed.

(** X15: when [Open] returns an error it returns no pile and the database
    is as it was: an error of an option, of the default connection, of the
    temporary directory or of [ensureSchema] leaves neither table created. *)
Theorem Open_failure_keeps_database (env : OpenEnv) (opts : list openOption)
    (d : Database) (e : error) :
  snd (Open env opts d) = Err e -> fst (Open env opts d) = d.
Proof.
  intros He. destruct (Open_cases env opts d) as [[Hd _] | [_ [p0 [c [dir [_ [_ [_ Hs]]]]]]]];
    [exact Hd | congruence].
Qed.

Lemma Open_failure_keeps_database_witness :
  fst (Open (mkOpenEnv (fun _ => None) (fun _ => None) (Ok staging) true
               (Some "database is locked"))
            [] no_tables)
  = no_tables.
Proof.
  apply (Open_failure_keeps_database _ _ _ "database is locked"). reflexivity.
Defined.

(** X16: when [Open] returns a pile, both tables exist, every row that was
    in them is still there and none was added, and the pile has a pool. *)
Theorem Open_success (env : OpenEnv) (opts : list openOption) (d : Database) (p : Pile) :
  snd (Open env opts d) = Ok p ->
  fst (Open env opts d) = schema d
  /\ fst (Open env opts d) = database_of (store_of d)
  /\ pool p <> None.
Proof.
  intros Hp.
  destruct (Open_cases env opts d) as [[_ [e He]] | [Hd [p0 [c [dir [_ [_ [_ Hs]]]]]]]];
    [congruence|].
  split; [exact Hd|]. split.
  - rewrite Hd. destruct d as [[r|] [c'|]]; reflexivity.
  - rewrite Hs in Hp. injection Hp as <-. discriminate.
Qed.

Lemma Open_success_witness :
  fst (Open (mkOpenEnv (fun _ => None) (fun _ => None) (Ok staging) true None)
            [] (mkDatabase (Some (repos indexed_once)) None))
  = database_of (mkStore (repos indexed_once) []).
Proof.
  exact (proj1 (proj2 (Open_success
           (mkOpenEnv (fun _ => None) (fun _ => None) (Ok staging) true None)
           [] (mkDatabase (Some (repos indexed_once)) None)
           (mkPile (Some default_connection) staging) eq_refl))).
Defined.

(** X17: on a database that already holds both tables, [Open] changes
    nothing, whatever its options and whatever it returns: opening a pile
    again keeps every row. *)
Theorem Open_keeps_existing_pile (env : OpenEnv) (opts : list openOption) (s : Store) :
  fst (Open env opts (database_of s)) = database_of s.
Proof.
  destruct (Open_cases env opts (database_of s)) as [[Hd _] | [Hd _]]; exact Hd.
Qed.

(** X18: the options are applied in order and the first one that fails ends
    [Open] with its error; the options after it have no effect. *)
Theorem Open_first_failing_option (env : OpenEnv) (before rest : list openOption)
    (bad : openOption) (p : Pile) (e : error) (d : Database) :
  apply_options env before (mkPile None "") = Ok p ->
  bad env p = Err e ->
  Open env (before ++ bad :: rest) d = (d, Err e).
Proof.
  intros Hb He. unfold Open. rewrite apply_options_app, Hb. simpl. now rewrite He.
Qed.

Lemma Open_first_failing_option_witness :
  Open (mkOpenEnv (fun c => if String.eqb c "file:locked.db" then Some "unable to open"
                            else None)
                  (fun _ => None) (Ok staging) true None)
       ([WithRepoClonePath "clones"] ++
        WithConnection "file:locked.db" :: [WithConnection "file:pile.db"])
       no_tables
  = (no_tables, Err "unable to open").
Proof.
  apply (Open_first_failing_option _ _ _ _ (mkPile None "clones")); reflexivity.
Defined.

(** X19: of several options of the same kind the last one counts: a pile
    opened with [WithConnection c] as its last option has the pool of [c],
    also for the empty [c], and one opened with [WithRepoClonePath f] as its
    last option, [f] not empty, clones under [f]. *)
Theorem Open_last_option_wins (env : OpenEnv) (opts : list openOption)
    (d : Database) (p : Pile) :
  (forall c, snd (Open env (opts ++ [WithConnection c]) d) = Ok p -> pool p = Some c)
  /\ (forall f, f <> "" ->
        snd (Open env (opts ++ [WithRepoClonePath f]) d) = Ok p -> clonePath p = f).
Proof.
  split.
  - intros c Hp.
    destruct (Open_cases env (opts ++ [WithConnection c]) d)
      as [[_ [e He]] | [_ [p0 [c' [dir [Ha [Hc [_ Hs]]]]]]]]; [congruence|].
    rewrite Hs in Hp. injection Hp as <-. simpl.
    rewrite apply_options_app in Ha.
    destruct (apply_options env opts (mkPile None "")) as [q|]; [|discriminate].
    simpl in Ha. unfold WithConnection in Ha.
    destruct (sqlitex_Open env c); [discriminate|]. injection Ha as <-.
    simpl in Hc. destruct Hc as [[_ Hc] | Hc]; congruence.
  - intros f Hf Hp.
    destruct (Open_cases env (opts ++ [WithRepoClonePath f]) d)
      as [[_ [e He]] | [_ [p0 [c' [dir [Ha [_ [Hd Hs]]]]]]]]; [congruence|].
    rewrite Hs in Hp. injection Hp as <-. simpl.
    rewrite apply_options_app in Ha.
    destruct (apply_options env opts (mkPile None "")) as [q|]; [|discriminate].
    simpl in Ha. unfold WithRepoClonePath in Ha.
    destruct (os_MkdirAll env f); [discriminate|]. injection Ha as <-.
    simpl in Hd. destruct Hd as [[_ Hd] | [Hd _]]; congruence.
Qed.

Lemma Open_last_option_wins_witness :
  pool (mkPile (Some "") staging) = Some "".
Proof.
  apply (proj1 (Open_last_option_wins
                  (mkOpenEnv (fun _ => None) (fun _ => None) (Ok staging) true None)
                  [WithConnection "file:pile.db"] no_tables
                  (mkPile (Some "") staging)) "").
  reflexivity.
Defined.

Lemma clone_path_options_keep_pool (env : OpenEnv) (opts : list openOption) :
  Forall (fun o => exists f, o = WithRepoClonePath f) opts ->
  forall p q, apply_options env opts p = Ok q -> pool q = pool p.
Proof.
  induction 1 as [|o opts [f ->] _ IH]; intros p q; simpl.
  - now intros [= <-].
  - unfold WithRepoClonePath at 1. destruct (os_MkdirAll env f); [discriminate|].
    intros H. now apply IH in H.
Qed.

Lemma connection_options_keep_path (env : OpenEnv) (opts : list openOption) :
  Forall (fun o => exists c, o = WithConnection c) opts ->
  forall p q, apply_options env opts p = Ok q -> clonePath q = clonePath p.
Proof.
  induction 1 as [|o opts [c ->] _ IH]; intros p q; simpl.
  - now intros [= <-].
  - unfold WithConnection at 1. destruct (sqlitex_Open env c); [discriminate|].
    intros H. now apply IH in H.
Qed.

(** X20: the defaults.  A pile opened with no [WithConnection] option has
    the pool of the shared in-memory database; one opened with no
    [WithRepoClonePath] option clones under the directory [os.MkdirTemp]
    made. *)
Theorem Open_defaults (env : OpenEnv) (opts : list openOption) (d : Database) (p : Pile) :
  snd (Open env opts d) = Ok p ->
  (Forall (fun o => exists f, o = WithRepoClonePath f) opts ->
     pool p = Some default_connection)
  /\ (Forall (fun o => exists c, o = WithConnection c) opts ->
        os_MkdirTemp env = Ok (clonePath p)).
Proof.
  intros Hp.
  destruct (Open_cases env opts d)
    as [[_ [e He]] | [_ [p0 [c [dir [Ha [Hc [Hd Hs]]]]]]]]; [congruence|].
  rewrite Hs in Hp. injection Hp as <-. simpl. split; intros Hall.
  - apply (clone_path_options_keep_pool env opts Hall) in Ha. simpl in Ha.
    destruct Hc as [[-> _] | Hc]; [reflexivity | congruence].
  - apply (connection_options_keep_path env opts Hall) in Ha. simpl in Ha.
    destruct Hd as [[Ht _] | [_ Hd]]; [exact Ht | congruence].
Qed.

End Opening.

Lemma Open_defaults_witness :
  pool (mkPile (Some default_connection) "clones") = Some default_connection.
Proof.
  apply (proj1 (Open_defaults open_well [WithRepoClonePath "clones"] no_tables
                  (mkPile (Some default_connection) "clones") eq_refl)).
  repeat constructor. now exists "clones".
Defined.

(** * The command line *)

Section CommandLine.

Lemma Open_with_connection (env : OpenEnv) (connection : string) (d : Database) :
  opens env connection ->
  exists dir, Open env [WithConnection connection] d
              = (schema d, Ok (mkPile (Some connection) dir)).
Proof.
  intros [Ho [[dir Ht] [Hg Hs]]]. exists dir.
  unfold Open, ensureSchema. simpl. unfold WithConnection.
  rewrite Ho. simpl. rewrite Ht. simpl. now rewrite Hg, Hs.
Qed.

Lemma opens_open_well (connection : string) : opens open_well connection.
Proof. repeat split. now exists staging. Qed.

(** X21: any verb other than the three known ones, a missing verb included,
    prints "unknown command" and changes no row; the run ends like a
    successful one, with exit status 0 when [Close] reports no error. *)
Theorem main_unknown_command (env : MainEnv) (connection : string)
    (args : list string) (d : Database) :
  opens (open_env env) connection ->
  flag_Arg args 0 <> "add-repo" ->
  flag_Arg args 0 <> "list-repos" ->
  flag_Arg args 0 <> "search-repos" ->
  main env connection args d
  = (schema d, mkExit ["unknown command"] (close_err env) true)
  /\ (close_err env = None -> exit_status (snd (main env connection args d)) = 0%Z).
Proof.
  intros Ho Ha Hl Hs.
  destruct (Open_with_connection _ _ d Ho) as [dir HO].
  assert (Hm : main env connection args d
               = (schema d, mkExit ["unknown command"] (close_err env) true)).
  { unfold main. rewrite HO.
    apply String.eqb_neq in Ha, Hl, Hs. now rewrite Ha, Hl, Hs. }
  split; [exact Hm|]. intros Hc. rewrite Hm. unfold exit_status. simpl. now rewrite Hc.
Qed.

Lemma main_unknown_command_witness :
  main all_well "file:pile.db" [] no_tables
  = (database_of empty_store, mkExit ["unknown command"] None true).
Proof.
  apply (main_unknown_command all_well "file:pile.db" [] no_tables);
    [apply opens_open_well | discriminate | discriminate | discriminate].
Defined.

(** X22: only [add-repo] writes rows: with any other first argument the
    rows of both tables after the run are those from before it, whatever
    fails, and the database is as it was or has gained its missing
    tables. *)
Theorem main_only_add_repo_writes (env : MainEnv) (connection : string)
    (args : list string) (d : Database) :
  flag_Arg args 0 <> "add-repo" ->
  store_of (fst (main env connection args d)) = store_of d
  /\ (fst (main env connection args d) = d
      \/ fst (main env connection args d) = schema d).
Proof.
  intros Ha. apply String.eqb_neq in Ha.
  assert (Hf : fst (main env connection args d)
               = fst (Open (open_env env) [WithConnection connection] d)).
  { unfold main.
    destruct (Open (open_env env) [WithConnection connection] d) as [d1 [p|e]];
      [|reflexivity].
    rewrite Ha.
    destruct (String.eqb (flag_Arg args 0) "list-repos").
    - now destruct (ListRepos (read_env env) (store_of d1)).
    - destruct (String.eqb (flag_Arg args 0) "search-repos"); [|reflexivity].
      now destruct (SearchAllRepoContents (read_env env) (flag_Arg args 1) (store_of d1)). }
  rewrite Hf.
  destruct (Open_cases (open_env env) [WithConnection connection] d)
    as [[Hd _] | [Hd _]]; rewrite Hd.
  - split; [reflexivity | now left].
  - split; [apply schema_rows | now right].
Qed.

Lemma main_only_add_repo_writes_witness :
  store_of (fst (main all_well "file:pile.db" ["search-repos"; "foo"]
                   (database_of indexed_once)))
  = store_of (database_of indexed_once).
Proof.
  apply (main_only_add_repo_writes all_well "file:pile.db" ["search-repos"; "foo"]
           (database_of indexed_once)).
  discriminate.
Defined.

(** X23: [search-repos] given without a query searches for the empty string
    and prints the path of every row of [repo_contents]. *)
Theorem main_search_without_query (env : MainEnv) (connection : string) (d : Database) :
  opens (open_env env) connection ->
  read_pool_get (read_env env) = true ->
  read_exec_err (read_env env) = None ->
  main env connection ["search-repos"] d
  = (schema d, mkExit (map path (repo_contents (store_of d))) (close_err env) true).
Proof.
  intros Ho Hg He.
  destruct (Open_with_connection _ _ d Ho) as [dir HO].
  unfold main. rewrite HO. simpl.
  unfold SearchAllRepoContents. rewrite Hg, He, schema_rows.
  now rewrite (filter_all _ _ where_clause_empty_query).
Qed.

Lemma main_search_without_query_witness :
  main all_well "file:pile.db" ["search-repos"] (database_of indexed_once)
  = (database_of indexed_once, mkExit ["a.txt"] None true).
Proof.
  apply (main_search_without_query all_well "file:pile.db" (database_of indexed_once));
    [apply opens_open_well | reflexivity | reflexivity].
Defined.

(** X24: two runs on the same database, first without tables: [add-repo u]
    in which nothing fails, for a non-empty head, exits with status 0, and
    a later [list-repos] prints exactly [u] and leaves the database as the
    first run left it. *)
Theorem main_add_then_list (env1 env2 : MainEnv) (connection u dir h : string)
    (files : list (string * string)) :
  opens (open_env env1) connection ->
  opens (open_env env2) connection ->
  add_env env1 = succeeding dir h files ->
  h <> "" ->
  close_err env1 = None ->
  read_pool_get (read_env env2) = true ->
  read_exec_err (read_env env2) = None ->
  let run1 := main env1 connection ["add-repo"; u] no_tables in
  exit_status (snd run1) = 0%Z
  /\ main env2 connection ["list-repos"] (fst run1)
     = (fst run1, mkExit [u] (close_err env2) true).
Proof.
  intros Ho1 Ho2 Hadd Hne Hc Hg He run1.
  destruct (Open_with_connection _ _ no_tables Ho1) as [d1 HO1].
  assert (Hrun : run1 =
            (database_of
               (mkStore [mkRepository 1 u h] (map (content_row (Some 1%Z)) files)),
             mkExit [] None true)).
  { unfold run1, main. rewrite HO1.
    change (String.eqb (flag_Arg ["add-repo"; u] 0) "add-repo") with true.
    change (flag_Arg ["add-repo"; u] 1) with u.
    change (store_of (schema no_tables)) with empty_store.
    cbv iota. rewrite Hadd.
    rewrite (AddRepo_new_url u dir h files empty_store eq_refl Hne).
    now rewrite Hc. }
  rewrite Hrun. split; [reflexivity|]. simpl fst.
  destruct (Open_with_connection _ _
              (database_of (mkStore [mkRepository 1 u h]
                                    (map (content_row (Some 1%Z)) files))) Ho2)
    as [d2 HO2].
  unfold main. rewrite HO2. simpl. unfold ListRepos. now rewrite Hg, He.
Qed.

Lemma main_add_then_list_witness :
  main all_well "file:pile.db" ["list-repos"]
       (fst (main all_well "file:pile.db" ["add-repo"; example_repo] no_tables))
  = (fst (main all_well "file:pile.db" ["add-repo"; example_repo] no_tables),
     mkExit [example_repo] None true).
Proof.
  apply (main_add_then_list all_well all_well "file:pile.db" example_repo
           staging "c0ffee" [("a.txt", "foo")]);
    try reflexivity; try apply opens_open_well; discriminate.
Defined.

End CommandLine.

(** * Instances on the concrete runs *)

Lemma ListRepos_no_duplicates_witness :
  NoDup [example_repo; "https://example/other"].
Proof.
  apply (ListRepos_no_duplicates
           [(succeeding staging "c0ffee" [("a.txt", "foo")], example_repo);
            (read_fails, "https://example/other");
            (select_fails, example_repo)]
           healthy).
  reflexivity.
Defined.

Lemma AddRepo_success_lists_url_witness :
  In example_repo
     (map url (repos (fst (AddRepo (succeeding staging "c0ffee" [("a.txt", "foo")])
                             example_repo empty_store)))).
Proof.
  apply (AddRepo_success_lists_url _ example_repo "c0ffee" empty_store);
    try reflexivity. discriminate.
Defined.

Lemma repos_ids_distinct_witness :
  (1 <= id (mkRepository 1 example_repo "c0ffee"))%Z.
Proof.
  apply (proj2 (repos_ids_distinct [(read_fails, example_repo)])).
  simpl. now left.
Defined.

Lemma AddRepo_twice_new_url_witness :
  AddRepo (succeeding staging "c0ffee" [("a.txt", "foo"); ("b.txt", "bar")]) example_repo
          (fst (AddRepo (succeeding staging "c0ffee" [("a.txt", "foo")])
                  example_repo empty_store))
  = (fst (AddRepo (succeeding staging "c0ffee" [("a.txt", "foo")])
            example_repo empty_store),
     None).
Proof.
  apply (AddRepo_twice_new_url example_repo staging staging "c0ffee"
           [("a.txt", "foo")] [("a.txt", "foo"); ("b.txt", "bar")] empty_store).
  - reflexivity.
  - discriminate.
Defined.
